(** * Config store façade of the CMS server: model and properties

    The repository holds four near-identical servers, modelled as three
    modules:
    - [Stdio]: the stdio server with the tools addItem, deleteItem and
      updateItem; the stdio server that has addItem only is the same text
      as its addItem;
    - [Http]: the HTTP server, whose [toolHandlers] lower-case the stored
      id and default the label with [capitalizeFirstLetter];
    - [Stateless]: the addItem tool that takes the config as an argument.

    Every handler is one round trip against a single database row: select
    the document, change it in memory, write the whole document back. *)

From Stdlib Require Import NArith String Ascii.
From stdpp Require Import base decidable option numbers list.

(** ** JavaScript strings

    A JavaScript string is a sequence of UTF-16 code units; [charAt],
    [slice], [length] and [===] all work on code units. *)

Abbreviation jsstring := (list N).

(** A literal of the source (all of them are ASCII). *)
Definition js (s : string) : jsstring :=
  (λ a, N_of_ascii a) <$> list_ascii_of_string s.
Arguments js s%_string.

(** [a === b] on strings. *)
Definition strict_eq (a b : jsstring) : bool := bool_decide (a = b).

(** [str.charAt(0)]: the first code unit as a string, empty when there is none. *)
Definition charAt0 (str : jsstring) : jsstring := take 1 str.

(** [str.slice(1)]. *)
Definition slice1 (str : jsstring) : jsstring := drop 1 str.

(** [String.prototype.toLowerCase] and [toUpperCase] belong to the runtime
    (they follow the Unicode case tables), so the handlers are written over
    an arbitrary pair of them. *)
Class CaseMapping := {
  toLowerCase : jsstring → jsstring;
  toUpperCase : jsstring → jsstring
}.

(** The runtime's case conversion on Basic Latin and Latin-1 Supplement
    (code units below U+0100); code units above are left as they are.
    Upper-casing can lengthen a string: U+00DF (sharp s) becomes "SS". *)
Definition lower_unit (c : N) : N :=
  if (65 <=? c)%N && (c <=? 90)%N then (c + 32)%N
  else if (192 <=? c)%N && (c <=? 222)%N && negb (c =? 215)%N then (c + 32)%N
  else c.

Definition upper_unit (c : N) : jsstring :=
  if (97 <=? c)%N && (c <=? 122)%N then [(c - 32)%N]
  else if (c =? 181)%N then [924%N]
  else if (c =? 223)%N then [83%N; 83%N]
  else if (224 <=? c)%N && (c <=? 254)%N && negb (c =? 247)%N then [(c - 32)%N]
  else if (c =? 255)%N then [376%N]
  else [c].

Definition Latin1 : CaseMapping := {|
  toLowerCase s := lower_unit <$> s;
  toUpperCase s := s ≫= upper_unit
|}.

(** <<
function capitalizeFirstLetter(str: string): string {
    if (!str) return str;
    return str.charAt(0).toUpperCase() + str.slice(1);
}
>> *)
Definition capitalizeFirstLetter {CM : CaseMapping} (str : jsstring) : jsstring :=
  match str with
  | [] => str
  | _ => toUpperCase (charAt0 str) ++ slice1 str
  end.

(** [a || b] where [a] is an optional string: the empty string and
    [undefined] are both falsy. *)
Definition or_else (a : option jsstring) (b : jsstring) : jsstring :=
  match a with
  | Some (c :: s) => c :: s
  | _ => b
  end.

(** ** JSON.stringify(value, null, 2) on the records of the schema

    The keys are printed in the order of the interfaces, which is the
    order of the object literals that the handlers build. *)

Definition hex_digit (d : N) : N :=
  if (d <? 10)%N then (48 + d)%N else (87 + d)%N.

(** The escape [\uXXXX] of a code unit, in lower-case hexadecimal. *)
Definition unicode_escape (c : N) : jsstring :=
  js "\u" ++ [hex_digit (c / 4096 mod 16); hex_digit (c / 256 mod 16);
              hex_digit (c / 16 mod 16); hex_digit (c mod 16)]%N.

Definition is_leading_surrogate (c : N) : bool := (55296 <=? c)%N && (c <=? 56319)%N.
Definition is_trailing_surrogate (c : N) : bool := (56320 <=? c)%N && (c <=? 57343)%N.

Definition escape_unit (c : N) : jsstring :=
  if (c =? 8)%N then js "\b"
  else if (c =? 9)%N then js "\t"
  else if (c =? 10)%N then js "\n"
  else if (c =? 12)%N then js "\f"
  else if (c =? 13)%N then js "\r"
  else if (c =? 34)%N then [92%N; 34%N]
  else if (c =? 92)%N then [92%N; 92%N]
  else if (c <? 32)%N then unicode_escape c
  else if is_leading_surrogate c || is_trailing_surrogate c then unicode_escape c
  else [c].

(** The characters of a quoted JSON string: a surrogate pair is copied,
    a lone surrogate is escaped. *)
Fixpoint quote_units (s : jsstring) : jsstring :=
  match s with
  | [] => []
  | c :: rest =>
      if is_leading_surrogate c then
        match rest with
        | d :: rest' =>
            if is_trailing_surrogate d then c :: d :: quote_units rest'
            else escape_unit c ++ quote_units rest
        | [] => escape_unit c
        end
      else escape_unit c ++ quote_units rest
  end.

Definition QuoteJSONString (s : jsstring) : jsstring :=
  [34%N] ++ quote_units s ++ [34%N].

Definition stringify_bool (b : bool) : jsstring :=
  if b then js "true" else js "false".

(** A line feed, as [\n] in a template literal. *)
Definition LF : jsstring := [10%N].

(** One property line of an object printed with indent 2. *)
Definition property (name : string) (value : jsstring) : jsstring :=
  js "  " ++ QuoteJSONString (js name) ++ js ": " ++ value.
Arguments property name%_string value.

(** ** The schema *)

Module Page.
Record t := mk { id : jsstring; title : jsstring; content : jsstring }.

Definition stringify (p : t) : jsstring :=
  js "{" ++ LF ++ property "id" (QuoteJSONString (id p)) ++ js "," ++ LF
    ++ property "title" (QuoteJSONString (title p)) ++ js "," ++ LF
    ++ property "content" (QuoteJSONString (content p)) ++ LF ++ js "}".
End Page.

Module SidebarItem.
Record t := mk { id : jsstring; label : jsstring; active : bool }.

Definition stringify (s : t) : jsstring :=
  js "{" ++ LF ++ property "id" (QuoteJSONString (id s)) ++ js "," ++ LF
    ++ property "label" (QuoteJSONString (label s)) ++ js "," ++ LF
    ++ property "active" (stringify_bool (active s)) ++ LF ++ js "}".
End SidebarItem.

Record State := mkState { pages : list Page.t; sidebar : list SidebarItem.t }.

(** The default [{ pages: [], sidebar: [] }]. *)
Definition empty_State : State := {| pages := []; sidebar := [] |}.

(** [AddItemParams.item]. *)
Module Item.
Record t := mk {
  id : jsstring;
  label : option jsstring;
  title : option jsstring;
  content : option jsstring;
  active : option bool
}.
End Item.

(** [UpdateItemParams.newItem]. *)
Module NewItem.
Record t := mk {
  id : option jsstring;
  label : option jsstring;
  title : option jsstring;
  content : option jsstring;
  active : option bool
}.
End NewItem.

(** [ToolResponse]: [{ content: Array<{ type: "text"; text: string }> }]. *)
Inductive ContentType := text_type.

Record TextContent := mkText { type : ContentType; text : jsstring }.

Record ToolResponse := mkResponse { content : list TextContent }.

(** [{ content: [{ type: "text", text }] }] *)
Definition text_response (t : jsstring) : ToolResponse :=
  {| content := [ {| type := text_type; text := t |} ] |}.

(** ** Arrays *)

(** [arr.some(p)]. *)
Definition Array_some {A} (p : A → bool) (arr : list A) : bool := existsb p arr.

(** [arr.findIndex(p)], paired with the element found: [None] stands for
    the index -1, [Some (i, x)] for the first index [i] with [p], where
    [x] is [arr[i]]. *)
Definition Array_findIndex {A} (p : A → bool) (arr : list A) : option (nat * A) :=
  list_find (λ x, p x = true) arr.

(** [arr.push(x)]. *)
Definition Array_push {A} (arr : list A) (x : A) : list A := arr ++ [x].

(** [arr.splice(i, 1)]: what is left in [arr]. *)
Definition Array_splice1 {A} (i : nat) (arr : list A) : list A := delete i arr.

(** ** The database row and the calls on it

    The table [configs] holds one row (id = 1) with the JSON column
    [config], which is null or a document of the schema. A call of the
    client either resolves with a result that may carry an [error] field,
    or its promise is rejected. *)

Inductive fault :=
| ErrorField (message : jsstring)
| Rejected (message : jsstring).

Record Db := mkDb {
  config : option State;          (* the column; [None] is SQL/JSON null *)
  select_fault : option fault;    (* what the next select does *)
  update_fault : option fault;    (* what the next update does *)
  update_calls : list State       (* the updates issued so far *)
}.

(** How the evaluation of an async body ends. *)
Inductive Completion (A : Type) :=
| Normal (value : A)
| Throw (message : jsstring).
Arguments Normal {A} value.
Arguments Throw {A} message.

Definition Async (A : Type) : Type := Db → Completion A * Db.

#[export] Instance Async_ret : MRet Async := λ A a db, (Normal a, db).

#[export] Instance Async_bind : MBind Async := λ A B f m db,
  match m db with
  | (Normal a, db') => f a db'
  | (Throw e, db') => (Throw e, db')
  end.

(** [try { body } catch (error) { handler(error.message) }] *)
Definition try_catch {A} (body : Async A) (handler : jsstring → Async A) : Async A :=
  λ db,
    match body db with
    | (Normal a, db') => (Normal a, db')
    | (Throw e, db') => handler e db'
    end.

(** The [{ data, error }] of a query. *)
Inductive QueryResult (A : Type) :=
| Data (data : A)
| Error (message : jsstring).
Arguments Data {A} data.
Arguments Error {A} message.

(** [await supabase.from("configs").select("config").single()]; the data is
    [data.config]. *)
Definition select_config : Async (QueryResult (option State)) := λ db,
  match select_fault db with
  | None => (Normal (Data (config db)), db)
  | Some (ErrorField m) => (Normal (Error m), db)
  | Some (Rejected m) => (Throw m, db)
  end.

(** [await supabase.from("configs").update({ config }).eq("id", 1)]; the
    result is the [error] field. *)
Definition update_config (c : State) : Async (option jsstring) := λ db,
  let issued := update_calls db ++ [c] in
  match update_fault db with
  | None =>
      (Normal None,
       {| config := Some c; select_fault := select_fault db;
          update_fault := update_fault db; update_calls := issued |})
  | Some (ErrorField m) =>
      (Normal (Some m),
       {| config := config db; select_fault := select_fault db;
          update_fault := update_fault db; update_calls := issued |})
  | Some (Rejected m) =>
      (Throw m,
       {| config := config db; select_fault := select_fault db;
          update_fault := update_fault db; update_calls := issued |})
  end.

(** [data.config || { pages: [], sidebar: [] }] *)
Definition config_or_default (data : option State) : State :=
  default empty_State data.

(** The texts shared by the servers that talk to the database. *)
Definition load_failed (message : jsstring) : ToolResponse :=
  text_response (js "Failed to load config from database: " ++ message).

Definition update_failed (message : jsstring) : ToolResponse :=
  text_response (js "Failed to update config in database: " ++ message).

Definition not_found (id : jsstring) : ToolResponse :=
  text_response (js "Item with ID " ++ id ++ js " not found in either sidebar or pages").

Definition sidebar_exists (id : jsstring) : ToolResponse :=
  text_response (js "Failed to add item: Sidebar item with ID " ++ id ++ js " already exists").

Definition page_exists (id : jsstring) : ToolResponse :=
  text_response (js "Failed to add item: Page with ID " ++ id ++ js " already exists").

Definition new_id_exists (id : jsstring) : ToolResponse :=
  text_response (js "Failed to update item: New ID " ++ id ++ js " already exists").

(** The response text of deleteItem, built up with [+=]. *)
Definition deleted_text (id : jsstring)
    (deletedSidebarItem : option SidebarItem.t) (deletedPageItem : option Page.t) : jsstring :=
  let responseText := js "Successfully deleted item with ID " ++ id in
  let responseText :=
    match deletedSidebarItem with
    | Some s => responseText ++ LF ++ js "Deleted Sidebar Item:" ++ LF ++ SidebarItem.stringify s
    | None => responseText
    end in
  match deletedPageItem with
  | Some p => responseText ++ LF ++ js "Deleted Page:" ++ LF ++ Page.stringify p
  | None => responseText
  end.

(** The response text of updateItem: each part shows the entry before and
    after the update. *)
Definition updated_text (oldId : jsstring)
    (sidebarChange : option (SidebarItem.t * SidebarItem.t))
    (pageChange : option (Page.t * Page.t)) : jsstring :=
  let responseText := js "Successfully updated item with ID " ++ oldId in
  let responseText :=
    match sidebarChange with
    | Some (original, updated) =>
        responseText ++ LF ++ js "Updated Sidebar Item:" ++ LF
          ++ js "From: " ++ SidebarItem.stringify original ++ LF
          ++ js "To: " ++ SidebarItem.stringify updated
    | None => responseText
    end in
  match pageChange with
  | Some (original, updated) =>
      responseText ++ LF ++ js "Updated Page:" ++ LF
        ++ js "From: " ++ Page.stringify original ++ LF
        ++ js "To: " ++ Page.stringify updated
  | None => responseText
  end.

(** Truthiness of a string: only the empty string is falsy. *)
Definition truthy (s : jsstring) : bool :=
  match s with
  | [] => false
  | _ :: _ => true
  end.

(** The guard of the duplicate check of updateItem; the result is the new
    id when the check fails the call.
<<
if (newItem.id && newItem.id !== oldId) {
    if (currentConfig.sidebar.some((item) => item.id === newItem.id) ||
        currentConfig.pages.some((item) => item.id === newItem.id)) { return ... }
}
>> *)
Definition colliding_id (newId : option jsstring) (oldId : jsstring)
    (currentConfig : State) : option jsstring :=
  match newId with
  | Some newId =>
      if truthy newId && negb (strict_eq newId oldId)
         && (Array_some (λ item, strict_eq (SidebarItem.id item) newId) (sidebar currentConfig)
             || Array_some (λ item, strict_eq (Page.id item) newId) (pages currentConfig))
      then Some newId
      else None
  | None => None
  end.

(** ** The stdio server (addItem, deleteItem, updateItem) *)

Module Stdio.

Definition addItem (item : Item.t) : Async ToolResponse :=
  try_catch
    (r ← select_config;
     match r with
     | Error message => mret (load_failed message)
     | Data data =>
         let currentConfig := config_or_default data in
         let sidebarItem :=
           {| SidebarItem.id := Item.id item;
              SidebarItem.label := default (js "Item " ++ Item.id item) (Item.label item);
              SidebarItem.active := default false (Item.active item) |} in
         let pageItem :=
           {| Page.id := Item.id item;
              Page.title := default (js "Page " ++ Item.id item) (Item.title item);
              Page.content := default (js "") (Item.content item) |} in
         if Array_some (λ existing, strict_eq (SidebarItem.id existing) (Item.id item))
              (sidebar currentConfig)
         then mret (sidebar_exists (Item.id item))
         else if Array_some (λ existing, strict_eq (Page.id existing) (Item.id item))
                   (pages currentConfig)
         then mret (page_exists (Item.id item))
         else
           let currentConfig :=
             {| sidebar := Array_push (sidebar currentConfig) sidebarItem;
                pages := Array_push (pages currentConfig) pageItem |} in
           updateError ← update_config currentConfig;
           match updateError with
           | Some message => mret (update_failed message)
           | None =>
               mret (text_response
                 (js "Successfully added item with ID " ++ Item.id item
                    ++ js " to both sidebar and pages and updated database:" ++ LF
                    ++ js "Sidebar Item:" ++ LF ++ SidebarItem.stringify sidebarItem ++ LF
                    ++ js "Page:" ++ LF ++ Page.stringify pageItem))
           end
     end)
    (λ message, mret (text_response (js "Failed to add item: " ++ message))).

Definition deleteItem (id : jsstring) : Async ToolResponse :=
  try_catch
    (r ← select_config;
     match r with
     | Error message => mret (load_failed message)
     | Data data =>
         let currentConfig := config_or_default data in
         let sidebarIndex :=
           Array_findIndex (λ item, strict_eq (SidebarItem.id item) id) (sidebar currentConfig) in
         let pageIndex :=
           Array_findIndex (λ item, strict_eq (Page.id item) id) (pages currentConfig) in
         match sidebarIndex, pageIndex with
         | None, None => mret (not_found id)
         | _, _ =>
             let deletedSidebarItem := snd <$> sidebarIndex in
             let deletedPageItem := snd <$> pageIndex in
             let currentConfig :=
               {| sidebar :=
                    match sidebarIndex with
                    | Some (i, _) => Array_splice1 i (sidebar currentConfig)
                    | None => sidebar currentConfig
                    end;
                  pages :=
                    match pageIndex with
                    | Some (i, _) => Array_splice1 i (pages currentConfig)
                    | None => pages currentConfig
                    end |} in
             updateError ← update_config currentConfig;
             match updateError with
             | Some message => mret (update_failed message)
             | None => mret (text_response (deleted_text id deletedSidebarItem deletedPageItem))
             end
         end
     end)
    (λ message, mret (text_response (js "Failed to delete item: " ++ message))).

(** The entries are rebuilt with [??]: a field left out of [newItem]
    falls back to the field of the entry found. *)
Definition updateItem (oldId : jsstring) (newItem : NewItem.t) : Async ToolResponse :=
  try_catch
    (r ← select_config;
     match r with
     | Error message => mret (load_failed message)
     | Data data =>
         let currentConfig := config_or_default data in
         let sidebarIndex :=
           Array_findIndex (λ item, strict_eq (SidebarItem.id item) oldId) (sidebar currentConfig) in
         let pageIndex :=
           Array_findIndex (λ item, strict_eq (Page.id item) oldId) (pages currentConfig) in
         match sidebarIndex, pageIndex with
         | None, None => mret (not_found oldId)
         | _, _ =>
             match colliding_id (NewItem.id newItem) oldId currentConfig with
             | Some newId => mret (new_id_exists newId)
             | None =>
               let sidebarChange :=
                 '(i, original) ← sidebarIndex;
                 Some (i, original,
                       {| SidebarItem.id := default (SidebarItem.id original) (NewItem.id newItem);
                          SidebarItem.label := default (SidebarItem.label original) (NewItem.label newItem);
                          SidebarItem.active := default (SidebarItem.active original) (NewItem.active newItem) |}) in
               let pageChange :=
                 '(i, original) ← pageIndex;
                 Some (i, original,
                       {| Page.id := default (Page.id original) (NewItem.id newItem);
                          Page.title := default (Page.title original) (NewItem.title newItem);
                          Page.content := default (Page.content original) (NewItem.content newItem) |}) in
               let currentConfig :=
                 {| sidebar :=
                      match sidebarChange with
                      | Some (i, _, updated) => <[i := updated]> (sidebar currentConfig)
                      | None => sidebar currentConfig
                      end;
                    pages :=
                      match pageChange with
                      | Some (i, _, updated) => <[i := updated]> (pages currentConfig)
                      | None => pages currentConfig
                      end |} in
               updateError ← update_config currentConfig;
               match updateError with
               | Some message => mret (update_failed message)
               | None =>
                   mret (text_response
                     (updated_text oldId
                        ((λ c, (c.1.2, c.2)) <$> sidebarChange)
                        ((λ c, (c.1.2, c.2)) <$> pageChange)))
               end
             end
         end
     end)
    (λ message, mret (text_response (js "Failed to update item: " ++ message))).

End Stdio.

(** ** The HTTP server: [toolHandlers] and GET /api/config *)

(** What [res.status(..).json(..)] sends. *)
Inductive Body :=
| ConfigBody (c : State)
| TextBody (r : ToolResponse).

Record HttpResponse := mkHttp { status : nat; body : Body }.

Module Http.
Section handlers.
Context {CM : CaseMapping}.

Definition addItem (item : Item.t) : Async ToolResponse :=
  try_catch
    (r ← select_config;
     match r with
     | Error message => mret (load_failed message)
     | Data data =>
         let currentConfig := config_or_default data in
         let sidebarItem :=
           {| SidebarItem.id := toLowerCase (Item.id item);
              SidebarItem.label := default (capitalizeFirstLetter (Item.id item)) (Item.label item);
              SidebarItem.active := default false (Item.active item) |} in
         let pageItem :=
           {| Page.id := toLowerCase (Item.id item);
              Page.title := default (js "Page " ++ Item.id item) (Item.title item);
              Page.content := default (js "") (Item.content item) |} in
         if Array_some (λ existing, strict_eq (SidebarItem.id existing) (Item.id item))
              (sidebar currentConfig)
         then mret (sidebar_exists (Item.id item))
         else if Array_some (λ existing, strict_eq (Page.id existing) (Item.id item))
                   (pages currentConfig)
         then mret (page_exists (Item.id item))
         else
           let currentConfig :=
             {| sidebar := Array_push (sidebar currentConfig) sidebarItem;
                pages := Array_push (pages currentConfig) pageItem |} in
           updateError ← update_config currentConfig;
           match updateError with
           | Some message => mret (update_failed message)
           | None =>
               mret (text_response
                 (js "Successfully added item with ID " ++ Item.id item
                    ++ js " to both sidebar and pages and updated database:" ++ LF
                    ++ js "Sidebar Item:" ++ LF ++ SidebarItem.stringify sidebarItem ++ LF
                    ++ js "Page:" ++ LF ++ Page.stringify pageItem))
           end
     end)
    (λ message, mret (text_response (js "Failed to add item: " ++ message))).

Definition deleteItem (id : jsstring) : Async ToolResponse :=
  try_catch
    (r ← select_config;
     match r with
     | Error message => mret (load_failed message)
     | Data data =>
         let currentConfig := config_or_default data in
         let sidebarIndex :=
           Array_findIndex (λ item, strict_eq (SidebarItem.id item) id) (sidebar currentConfig) in
         let pageIndex :=
           Array_findIndex (λ item, strict_eq (Page.id item) id) (pages currentConfig) in
         match sidebarIndex, pageIndex with
         | None, None => mret (not_found id)
         | _, _ =>
             let deletedSidebarItem := snd <$> sidebarIndex in
             let deletedPageItem := snd <$> pageIndex in
             let currentConfig :=
               {| sidebar :=
                    match sidebarIndex with
                    | Some (i, _) => Array_splice1 i (sidebar currentConfig)
                    | None => sidebar currentConfig
                    end;
                  pages :=
                    match pageIndex with
                    | Some (i, _) => Array_splice1 i (pages currentConfig)
                    | None => pages currentConfig
                    end |} in
             updateError ← update_config currentConfig;
             match updateError with
             | Some message => mret (update_failed message)
             | None => mret (text_response (deleted_text id deletedSidebarItem deletedPageItem))
             end
         end
     end)
    (λ message, mret (text_response (js "Failed to delete item: " ++ message))).

(** The entries are rebuilt with [||] and template defaults: a field left
    out of [newItem] (or given as the empty string) is set from the id,
    not from the entry found. *)
Definition updateItem (oldId : jsstring) (newItem : NewItem.t) : Async ToolResponse :=
  try_catch
    (r ← select_config;
     match r with
     | Error message => mret (load_failed message)
     | Data data =>
         let currentConfig := config_or_default data in
         let sidebarIndex :=
           Array_findIndex (λ item, strict_eq (SidebarItem.id item) oldId) (sidebar currentConfig) in
         let pageIndex :=
           Array_findIndex (λ item, strict_eq (Page.id item) oldId) (pages currentConfig) in
         match sidebarIndex, pageIndex with
         | None, None => mret (not_found oldId)
         | _, _ =>
             match colliding_id (NewItem.id newItem) oldId currentConfig with
             | Some newId => mret (new_id_exists newId)
             | None =>
               let sidebarChange :=
                 '(i, original) ← sidebarIndex;
                 Some (i, original,
                       {| SidebarItem.id := or_else (toLowerCase <$> NewItem.id newItem) oldId;
                          SidebarItem.label :=
                            or_else (NewItem.label newItem)
                              (capitalizeFirstLetter (or_else (NewItem.id newItem) oldId));
                          SidebarItem.active := default false (NewItem.active newItem) |}) in
               let pageChange :=
                 '(i, original) ← pageIndex;
                 Some (i, original,
                       {| Page.id := or_else (toLowerCase <$> NewItem.id newItem) oldId;
                          Page.title :=
                            or_else (NewItem.title newItem)
                              (js "Page " ++ or_else (NewItem.id newItem) oldId);
                          Page.content :=
                            or_else (NewItem.content newItem)
                              (js "Welcome to the page " ++ or_else (NewItem.id newItem) oldId) |}) in
               let currentConfig :=
                 {| sidebar :=
                      match sidebarChange with
                      | Some (i, _, updated) => <[i := updated]> (sidebar currentConfig)
                      | None => sidebar currentConfig
                      end;
                    pages :=
                      match pageChange with
                      | Some (i, _, updated) => <[i := updated]> (pages currentConfig)
                      | None => pages currentConfig
                      end |} in
               updateError ← update_config currentConfig;
               match updateError with
               | Some message => mret (update_failed message)
               | None =>
                   mret (text_response
                     (updated_text oldId
                        ((λ c, (c.1.2, c.2)) <$> sidebarChange)
                        ((λ c, (c.1.2, c.2)) <$> pageChange)))
               end
             end
         end
     end)
    (λ message, mret (text_response (js "Failed to update item: " ++ message))).

(** GET /api/config *)
Definition getConfig : Async HttpResponse :=
  try_catch
    (r ← select_config;
     match r with
     | Error message =>
         mret {| status := 500; body := TextBody (load_failed message) |}
     | Data data =>
         mret {| status := 200; body := ConfigBody (config_or_default data) |}
     end)
    (λ message,
       mret {| status := 500;
               body := TextBody (text_response (js "Error fetching config: " ++ message)) |}).

End handlers.
End Http.

(** ** The stateless addItem tool

    Its schema has no [content] and no [active]; the config comes with the
    arguments and the changed config goes back in [updatedConfig]. *)

Module Stateless.

Module Page.
Record t := mk { id : jsstring; title : jsstring }.

Definition stringify (p : t) : jsstring :=
  js "{" ++ LF ++ property "id" (QuoteJSONString (id p)) ++ js "," ++ LF
    ++ property "title" (QuoteJSONString (title p)) ++ LF ++ js "}".
End Page.

Module SidebarItem.
Record t := mk { id : jsstring; label : jsstring }.

Definition stringify (s : t) : jsstring :=
  js "{" ++ LF ++ property "id" (QuoteJSONString (id s)) ++ js "," ++ LF
    ++ property "label" (QuoteJSONString (label s)) ++ LF ++ js "}".
End SidebarItem.

Record State := mkState { pages : list Page.t; sidebar : list SidebarItem.t }.

Module Item.
Record t := mk { id : jsstring; label : option jsstring; title : option jsstring }.
End Item.

Record AddItemParams := mkParams { config : State; item : Item.t }.

(** What [z.object(addItemSchema).parse(args)] does with the arguments. *)
Inductive Parse :=
| Parsed (validatedData : AddItemParams)
| ZodError (message : jsstring).

Record Response := mkResponse {
  content : list TextContent;
  updatedConfig : option State
}.

Definition failure (t : jsstring) : Response :=
  {| content := [ {| type := text_type; text := t |} ]; updatedConfig := None |}.

(** The handler reads no store: it ends with a response or a throw. *)
Definition addItem {CM : CaseMapping} (args : Parse) : Completion Response :=
  match args with
  | ZodError message => Normal (failure (js "Failed to add item: " ++ message))
  | Parsed validatedData =>
      let currentConfig := config validatedData in
      let id := Item.id (item validatedData) in
      let sidebarItem :=
        {| SidebarItem.id := toLowerCase id;
           SidebarItem.label :=
             default (capitalizeFirstLetter id) (Item.label (item validatedData)) |} in
      let pageItem :=
        {| Page.id := toLowerCase id;
           Page.title := default (js "Page " ++ id) (Item.title (item validatedData)) |} in
      if Array_some (λ existing, strict_eq (SidebarItem.id existing) id) (sidebar currentConfig)
      then Normal (failure (js "Failed to add item: Sidebar item with ID " ++ id
                              ++ js " already exists"))
      else if Array_some (λ existing, strict_eq (Page.id existing) id) (pages currentConfig)
      then Normal (failure (js "Failed to add item: Page with ID " ++ id
                              ++ js " already exists"))
      else
        let updatedConfig :=
          {| sidebar := sidebar currentConfig ++ [sidebarItem];
             pages := pages currentConfig ++ [pageItem] |} in
        Normal
          {| content :=
               [ {| type := text_type;
                    text := js "Successfully added item with ID " ++ id
                              ++ js " to both sidebar and pages:" ++ LF
                              ++ js "Sidebar Item:" ++ LF ++ SidebarItem.stringify sidebarItem ++ LF
                              ++ js "Page:" ++ LF ++ Page.stringify pageItem |} ];
             updatedConfig := Some updatedConfig |}
  end.

End Stateless.

(** ** The POST routes of the HTTP server

    Each route validates the body with its schema and hands the validated
    data to the tool handler; whatever is thrown on the way is answered
    with status 400. *)

(** What [schema.parse(req.body)] does with a body: it returns the
    validated data or throws a ZodError. *)
Inductive Validation (A : Type) :=
| Valid (validatedData : A)
| Invalid (message : jsstring).
Arguments Valid {A} validatedData.
Arguments Invalid {A} message.

(** [throw error], where [message] is [error.message]. *)
Definition throw {A} (message : jsstring) : Async A := λ db, (Throw message, db).

Definition parse {A} (body : Validation A) : Async A :=
  match body with
  | Valid validatedData => mret validatedData
  | Invalid message => throw message
  end.

(** [res.status(400).json({ content: [{ type: "text", text }] })] *)
Definition bad_request (t : jsstring) : HttpResponse :=
  {| status := 400; body := TextBody (text_response t) |}.

Module Routes.
Section routes.
Context {CM : CaseMapping}.

(** POST /api/addItem; [res.json(result)] answers with status 200. *)
Definition post_addItem (body : Validation Item.t) : Async HttpResponse :=
  try_catch
    (validatedData ← parse body;
     result ← Http.addItem validatedData;
     mret {| status := 200; body := TextBody result |})
    (λ message, mret (bad_request (js "Error executing addItem: " ++ message))).

(** POST /api/deleteItem *)
Definition post_deleteItem (body : Validation jsstring) : Async HttpResponse :=
  try_catch
    (validatedData ← parse body;
     result ← Http.deleteItem validatedData;
     mret {| status := 200; body := TextBody result |})
    (λ message, mret (bad_request (js "Error executing deleteItem: " ++ message))).

(** POST /api/updateItem; the validated data is [{ oldId, newItem }]. *)
Definition post_updateItem (body : Validation (jsstring * NewItem.t)) : Async HttpResponse :=
  try_catch
    (validatedData ← parse body;
     result ← Http.updateItem validatedData.1 validatedData.2;
     mret {| status := 200; body := TextBody result |})
    (λ message, mret (bad_request (js "Error executing updateItem: " ++ message))).

End routes.
End Routes.

(** * Properties *)

(** The config a handler works on after a successful select. *)
Definition stored (db : Db) : State := config_or_default (config db).

(** No two pages share an id and no two sidebar items share an id. *)
Definition unique_ids (c : State) : Prop :=
  NoDup (Page.id <$> pages c) ∧ NoDup (SidebarItem.id <$> sidebar c).

(** A database whose calls succeed and that has seen no update yet. *)
Definition healthy (c : option State) : Db :=
  {| config := c; select_fault := None; update_fault := None; update_calls := [] |}.

(** [{ id: "home", title: "Home" }] *)
Definition home_item : Item.t :=
  {| Item.id := js "home"; Item.label := None; Item.title := Some (js "Home");
     Item.content := None; Item.active := None |}.

(** [{ pages: [{ id: "home", title: "Home", content: "" }],
       sidebar: [{ id: "home", label: "Home", active: false }] }] *)
Definition home_State : State :=
  {| pages := [ {| Page.id := js "home"; Page.title := js "Home"; Page.content := js "" |} ];
     sidebar := [ {| SidebarItem.id := js "home"; SidebarItem.label := js "Home";
                     SidebarItem.active := false |} ] |}.

(** [{ pages: [{ id: "a", title: "T", content: "C" }],
       sidebar: [{ id: "a", label: "Custom", active: true }] }] *)
Definition custom_State : State :=
  {| pages := [ {| Page.id := js "a"; Page.title := js "T"; Page.content := js "C" |} ];
     sidebar := [ {| SidebarItem.id := js "a"; SidebarItem.label := js "Custom";
                     SidebarItem.active := true |} ] |}.

(** A [newItem] with no field at all: [{}]. *)
Definition no_fields : NewItem.t :=
  {| NewItem.id := None; NewItem.label := None; NewItem.title := None;
     NewItem.content := None; NewItem.active := None |}.

(** [{ id }] *)
Definition only_id (id : jsstring) : NewItem.t :=
  {| NewItem.id := Some id; NewItem.label := None; NewItem.title := None;
     NewItem.content := None; NewItem.active := None |}.

(** An entry with the empty id in front of [custom_State]; it is what
    addItem of [{ id: "" }] leaves on the stdio server. *)
Definition empty_id_State : State :=
  {| pages := {| Page.id := js ""; Page.title := js "Page "; Page.content := js "" |}
                :: pages custom_State;
     sidebar := {| SidebarItem.id := js ""; SidebarItem.label := js "Item ";
                   SidebarItem.active := false |}
                :: sidebar custom_State |}.

(** [{ id: "Home" }] *)
Definition Home_item : Item.t :=
  {| Item.id := js "Home"; Item.label := None; Item.title := None;
     Item.content := None; Item.active := None |}.

(** [{ id: "" }] *)
Definition empty_id_item : Item.t :=
  {| Item.id := js ""; Item.label := None; Item.title := None;
     Item.content := None; Item.active := None |}.

(** [{ label }] *)
Definition only_label (label : jsstring) : NewItem.t :=
  {| NewItem.id := None; NewItem.label := Some label; NewItem.title := None;
     NewItem.content := None; NewItem.active := None |}.

(** The sidebar of [custom_State] and no page. *)
Definition sidebar_only_State : State :=
  {| pages := []; sidebar := sidebar custom_State |}.

(** A config that has the id "a" twice in each sequence, around "b". *)
Definition repeated_State : State :=
  {| pages :=
       [ {| Page.id := js "a"; Page.title := js "First"; Page.content := js "" |};
         {| Page.id := js "b"; Page.title := js "Other"; Page.content := js "" |};
         {| Page.id := js "a"; Page.title := js "Second"; Page.content := js "" |} ];
     sidebar :=
       [ {| SidebarItem.id := js "a"; SidebarItem.label := js "First"; SidebarItem.active := false |};
         {| SidebarItem.id := js "b"; SidebarItem.label := js "Other"; SidebarItem.active := false |};
         {| SidebarItem.id := js "a"; SidebarItem.label := js "Second"; SidebarItem.active := true |} ] |}.

(** The entries of [home_State] followed by those of [custom_State]. *)
Definition home_and_a_State : State :=
  {| pages := pages home_State ++ pages custom_State;
     sidebar := sidebar home_State ++ sidebar custom_State |}.

(** The arguments [{ config, item: { id: "Home" } }] of the stateless tool,
    where the config has the single id "home". *)
Definition stateless_Home_args : Stateless.Parse :=
  Stateless.Parsed
    {| Stateless.config :=
         {| Stateless.pages :=
              [ {| Stateless.Page.id := js "home"; Stateless.Page.title := js "Home" |} ];
            Stateless.sidebar :=
              [ {| Stateless.SidebarItem.id := js "home";
                   Stateless.SidebarItem.label := js "Home" |} ] |};
       Stateless.item :=
         {| Stateless.Item.id := js "Home"; Stateless.Item.label := None;
            Stateless.Item.title := None |} |}.

(** The list with its first entry whose key is [x] replaced by [f] of it. *)
Fixpoint update_first {A} (key : A → jsstring) (x : jsstring) (f : A → A) (l : list A) : list A :=
  match l with
  | [] => []
  | e :: l' => if decide (key e = x) then f e :: l' else e :: update_first key x f l'
  end.

(** What a handler for the tool [op] item does with the outcomes of the
    store: it always ends normally with one text entry; an [error] of the
    select or of the update is reported with its message, a rejected call
    is reported by the catch clause of the handler. An update counts only
    when the handler got as far as issuing it. *)
Definition reports_failures (op : string) (handler : Async ToolResponse) : Prop :=
  ∀ db : Db,
    (∃ t, (handler db).1 = Normal (text_response t))
    ∧ (∀ m, select_fault db = Some (ErrorField m) →
         handler db = (Normal (load_failed m), db))
    ∧ (∀ m, select_fault db = Some (Rejected m) →
         handler db =
           (Normal (text_response (js "Failed to " ++ js op ++ js " item: " ++ m)), db))
    ∧ (∀ m, update_fault db = Some (ErrorField m) →
         update_calls (handler db).2 ≠ update_calls db →
         (handler db).1 = Normal (update_failed m))
    ∧ (∀ m, update_fault db = Some (Rejected m) →
         update_calls (handler db).2 ≠ update_calls db →
         (handler db).1 =
           Normal (text_response (js "Failed to " ++ js op ++ js " item: " ++ m))).
Arguments reports_failures op%_string handler.

(** The list without its first entry whose key is [x]. *)
Fixpoint remove_first {A} (key : A → jsstring) (x : jsstring) (l : list A) : list A :=
  match l with
  | [] => []
  | e :: l' => if decide (key e = x) then l' else e :: remove_first key x l'
  end.

(** The response text tells whether the document was written: it starts
    with "Successfully" exactly when the handler issued an update that
    succeeded, and when it does not the row is as it was. *)
Definition success_is_told (handler : Async ToolResponse) : Prop :=
  ∀ (db : Db) (t : jsstring),
    (handler db).1 = Normal (text_response t) →
    (js "Successfully" `prefix_of` t
       ↔ update_fault db = None ∧ update_calls (handler db).2 ≠ update_calls db)
    ∧ (¬ js "Successfully" `prefix_of` t → config (handler db).2 = config db).

(** The handler changes the database by at most one update: it leaves the
    database as it was, or it issued one update of a config [c] that went
    through, or one that failed and left the row. *)
Definition one_update (handler : Async ToolResponse) (db : Db) (c : State) : Prop :=
  (handler db).2 =
    {| config := match update_fault db with None => Some c | Some _ => config db end;
       select_fault := select_fault db; update_fault := update_fault db;
       update_calls := update_calls db ++ [c] |}.

(** From [before] to [after] no entry was added or removed, and every
    entry whose id is not [oldId] is where it was. *)
Definition keeps_other_entries (oldId : jsstring) (before after : State) : Prop :=
  length (sidebar after) = length (sidebar before)
  ∧ length (pages after) = length (pages before)
  ∧ (∀ i s, sidebar before !! i = Some s → SidebarItem.id s ≠ oldId →
       sidebar after !! i = Some s)
  ∧ (∀ i p, pages before !! i = Some p → Page.id p ≠ oldId →
       pages after !! i = Some p).

(** A call of the handler leaves the database as it was or issues exactly
    one update. *)
Definition updates_at_most_once (handler : Async ToolResponse) : Prop :=
  ∀ db : Db, (handler db).2 = db ∨ ∃ c, one_update handler db c.

(** The database after an update of [c] that went through. *)
Definition written (db : Db) (c : State) : Db :=
  {| config := Some c; select_fault := select_fault db;
     update_fault := update_fault db; update_calls := update_calls db ++ [c] |}.

(** ** Scans by id *)

Section scans.
Context {A : Type} (key : A → jsstring).
Implicit Types (x : jsstring) (l : list A).

Lemma strict_eq_true (a b : jsstring) : strict_eq a b = true ↔ a = b.
Proof. unfold strict_eq. apply bool_decide_eq_true. Qed.

Lemma Array_some_elem x l :
  Array_some (λ e, strict_eq (key e) x) l = true ↔ x ∈ key <$> l.
Proof.
  unfold Array_some. induction l as [|e l IH]; simpl.
  - split; [discriminate | intros H; inversion H].
  - rewrite orb_true_iff, IH, strict_eq_true, elem_of_cons. intuition congruence.
Qed.

Lemma Array_some_absent x l :
  x ∉ key <$> l → Array_some (λ e, strict_eq (key e) x) l = false.
Proof.
  intros H. destruct (Array_some _ l) eqn:E; [|done].
  by apply Array_some_elem in E.
Qed.

Lemma findIndex_absent x l :
  x ∉ key <$> l → Array_findIndex (λ e, strict_eq (key e) x) l = None.
Proof.
  intros H. unfold Array_findIndex. apply list_find_None, Forall_forall.
  intros e He Heq. apply strict_eq_true in Heq.
  apply H, list_elem_of_fmap. eauto.
Qed.

Lemma findIndex_first x l1 e l2 :
  key e = x → x ∉ key <$> l1 →
  Array_findIndex (λ e, strict_eq (key e) x) (l1 ++ e :: l2) = Some (length l1, e).
Proof.
  intros He Hl1. unfold Array_findIndex. apply list_find_Some. split_and!.
  - by rewrite list_lookup_middle.
  - by apply strict_eq_true.
  - intros j y Hj Hlt Hy. apply strict_eq_true in Hy.
    rewrite lookup_app_l in Hj by done.
    apply Hl1, list_elem_of_fmap. exists y. split; [done|].
    by eapply list_elem_of_lookup_2.
Qed.

(** An id that occurs has a first occurrence. *)
Lemma first_occurrence x l :
  x ∈ key <$> l → ∃ l1 e l2, l = l1 ++ e :: l2 ∧ key e = x ∧ x ∉ key <$> l1.
Proof.
  induction l as [|e l IH]; simpl; [by intros ?%elem_of_nil|].
  destruct (decide (key e = x)) as [Heq|Hne].
  - intros _. exists [], e, l. split_and!; [done..|]. simpl. apply not_elem_of_nil.
  - intros [?|Hin]%elem_of_cons; [done|].
    destruct (IH Hin) as (l1 & e' & l2 & -> & ? & ?).
    exists (e :: l1), e', l2. split_and!; [done..|].
    simpl. apply not_elem_of_cons. done.
Qed.

Lemma insert_middle l1 (e e' : A) l2 :
  <[length l1 := e']> (l1 ++ e :: l2) = l1 ++ e' :: l2.
Proof. induction l1 as [|? ? IH]; simpl; [done|]. by rewrite IH. Qed.

Lemma remove_first_absent x l : x ∉ key <$> l → remove_first key x l = l.
Proof.
  induction l as [|e l IH]; simpl; [done|].
  intros [Hne Hl]%not_elem_of_cons. case_decide; [done|]. by rewrite IH.
Qed.

Lemma remove_first_middle x l1 e l2 :
  key e = x → x ∉ key <$> l1 → remove_first key x (l1 ++ e :: l2) = l1 ++ l2.
Proof.
  intros He. induction l1 as [|e1 l1 IH]; simpl.
  - intros _. by rewrite decide_True.
  - intros [Hne Hl]%not_elem_of_cons. rewrite decide_False by done. by rewrite IH.
Qed.

(** [findIndex] followed by [splice(index, 1)] when the index is not -1. *)
Lemma splice_found x l :
  match Array_findIndex (λ e, strict_eq (key e) x) l with
  | Some (i, _) => Array_splice1 i l
  | None => l
  end = remove_first key x l.
Proof.
  destruct (decide (x ∈ key <$> l)) as [Hin|Hout].
  - destruct (first_occurrence x l Hin) as (l1 & e & l2 & -> & He & Hl1).
    rewrite findIndex_first, remove_first_middle by done.
    unfold Array_splice1. apply delete_middle.
  - by rewrite findIndex_absent, remove_first_absent.
Qed.

Lemma update_first_absent x f l : x ∉ key <$> l → update_first key x f l = l.
Proof.
  induction l as [|e l IH]; simpl; [done|].
  intros [Hne Hl]%not_elem_of_cons. case_decide; [done|]. by rewrite IH.
Qed.

Lemma update_first_middle x f l1 e l2 :
  key e = x → x ∉ key <$> l1 →
  update_first key x f (l1 ++ e :: l2) = l1 ++ f e :: l2.
Proof.
  intros He. induction l1 as [|e1 l1 IH]; simpl.
  - intros _. by rewrite decide_True.
  - intros [Hne Hl]%not_elem_of_cons. rewrite decide_False by done. by rewrite IH.
Qed.

(** [findIndex] followed by [arr[index] = f(arr[index])] when the index is
    not -1. *)
Lemma assign_found x f l :
  match Array_findIndex (λ e, strict_eq (key e) x) l with
  | Some (i, e) => <[i := f e]> l
  | None => l
  end = update_first key x f l.
Proof.
  destruct (decide (x ∈ key <$> l)) as [Hin|Hout].
  - destruct (first_occurrence x l Hin) as (l1 & e & l2 & -> & He & Hl1).
    rewrite findIndex_first, update_first_middle by done.
    apply insert_middle.
  - by rewrite findIndex_absent, update_first_absent.
Qed.

Lemma findIndex_None_absent x l :
  Array_findIndex (λ e, strict_eq (key e) x) l = None → x ∉ key <$> l.
Proof.
  intros Hnone Hin.
  destruct (first_occurrence x l Hin) as (l1 & e & l2 & -> & He & Hl1).
  by rewrite findIndex_first in Hnone.
Qed.

Lemma elem_of_middle x l1 e l2 : key e = x → x ∈ key <$> (l1 ++ e :: l2).
Proof.
  intros <-. rewrite fmap_app, fmap_cons. apply elem_of_app. right. apply list_elem_of_here.
Qed.

Lemma Array_some_false_absent x l :
  Array_some (λ e, strict_eq (key e) x) l = false → x ∉ key <$> l.
Proof. intros Hf Hin. apply Array_some_elem in Hin. congruence. Qed.

Lemma remove_first_NoDup x l : NoDup (key <$> l) → NoDup (key <$> remove_first key x l).
Proof.
  induction l as [|e l IH]; simpl; [done|].
  intros [Hnotin Hnd]%NoDup_cons. case_decide; [done|].
  simpl. apply NoDup_cons. split; [|by apply IH].
  intros Hin. apply Hnotin. clear -Hin.
  induction l as [|e' l IH]; simpl in *; [done|].
  case_decide.
  - by apply list_elem_of_further.
  - apply elem_of_cons in Hin as [->|Hin]; [apply list_elem_of_here|].
    by apply list_elem_of_further, IH.
Qed.

Lemma update_first_keys x f l z :
  z ∈ key <$> update_first key x f l →
  z ∈ key <$> l ∨ ∃ e, e ∈ l ∧ key e = x ∧ z = key (f e).
Proof.
  induction l as [|e l IH]; simpl; [by intros ?%elem_of_nil|].
  case_decide; simpl; intros [->|Hin]%elem_of_cons.
  - right. exists e. split_and!; [apply list_elem_of_here|done..].
  - left. by apply list_elem_of_further.
  - left. apply list_elem_of_here.
  - destruct (IH Hin) as [?|(e' & ? & ? & ?)].
    + left. by apply list_elem_of_further.
    + right. exists e'. split_and!; [by apply list_elem_of_further|done..].
Qed.

(** Replacing the first entry of key [x] keeps the keys distinct when the
    new key is [x] again or a key that the list does not have. *)
Lemma update_first_NoDup x f l :
  NoDup (key <$> l) →
  (∀ e, e ∈ l → key e = x → key (f e) = x ∨ key (f e) ∉ key <$> l) →
  NoDup (key <$> update_first key x f l).
Proof.
  induction l as [|e l IH]; simpl; [done|].
  intros [Hnotin Hnd]%NoDup_cons Hf. case_decide as Hx; simpl; apply NoDup_cons.
  - split; [|done].
    destruct (Hf e (list_elem_of_here _ _) Hx) as [->|Hfresh].
    + by rewrite <- Hx.
    + intros Hin. apply Hfresh. by apply list_elem_of_further.
  - split.
    + intros Hin. apply update_first_keys in Hin as [?|(e' & He' & Hk & Hz)]; [done|].
      destruct (Hf e' (list_elem_of_further _ _ _ He') Hk) as [Heq|Hfresh].
      * congruence.
      * apply Hfresh. rewrite <- Hz. apply list_elem_of_here.
    + apply IH; [done|]. intros e' He' Hk.
      destruct (Hf e' (list_elem_of_further _ _ _ He') Hk) as [?|Hfresh]; [by left|].
      right. intros Hin. apply Hfresh. by apply list_elem_of_further.
Qed.

Lemma push_NoDup l e : NoDup (key <$> l) → key e ∉ key <$> l → NoDup (key <$> Array_push l e).
Proof.
  intros Hnd Hnotin. unfold Array_push. rewrite fmap_app. apply NoDup_app.
  split_and!; [done| |apply NoDup_singleton].
  intros z Hz ->%list_elem_of_singleton. done.
Qed.

End scans.

(** ** Running a handler *)

Lemma select_config_ok db :
  select_fault db = None → select_config db = (Normal (Data (config db)), db).
Proof. intros H. unfold select_config. by rewrite H. Qed.

Lemma update_config_ok c db :
  update_fault db = None →
  update_config c db =
    (Normal None,
     {| config := Some c; select_fault := select_fault db;
        update_fault := update_fault db; update_calls := update_calls db ++ [c] |}).
Proof. intros H. unfold update_config. by rewrite H. Qed.

Lemma Async_bind_run {A B} (m : Async A) (f : A → Async B) db :
  (m ≫= f) db =
    match m db with
    | (Normal a, db') => f a db'
    | (Throw e, db') => (Throw e, db')
    end.
Proof. reflexivity. Qed.

Lemma Async_ret_run {A} (a : A) db : mret (M := Async) a db = (Normal a, db).
Proof. reflexivity. Qed.

Lemma stored_Some c sf uf calls :
  stored {| config := Some c; select_fault := sf; update_fault := uf; update_calls := calls |} = c.
Proof. reflexivity. Qed.

Ltac run_select H :=
  unfold try_catch; rewrite Async_bind_run, (select_config_ok _ H); cbv beta iota.

(** ** addItem on an id that exists *)

(** C4. When the select succeeds and the item's id is the id of a sidebar
    item or of a page, addItem answers, on the stdio server and on the HTTP
    server alike, with the failure text that names the id and leaves the
    database as it was: the row is the same and no update was issued. *)
Theorem addItem_existing_id_rejected {CM : CaseMapping} (db : Db) (item : Item.t) :
  select_fault db = None →
  Item.id item ∈ SidebarItem.id <$> sidebar (stored db)
    ∨ Item.id item ∈ Page.id <$> pages (stored db) →
  ∃ what, what ∈ [js "Sidebar item"; js "Page"] ∧
    Stdio.addItem item db =
      (Normal (text_response
         (js "Failed to add item: " ++ what ++ js " with ID " ++ Item.id item
            ++ js " already exists")), db)
    ∧ Http.addItem item db =
        (Normal (text_response
           (js "Failed to add item: " ++ what ++ js " with ID " ++ Item.id item
              ++ js " already exists")), db).
Proof.
  intros Hsel Hin. unfold Stdio.addItem, Http.addItem. run_select Hsel.
  rewrite Async_bind_run, (select_config_ok _ Hsel). cbv beta iota.
  fold (stored db).
  destruct (Array_some _ (sidebar (stored db))) eqn:Es.
  - exists (js "Sidebar item"). split; [apply list_elem_of_here|]. done.
  - destruct Hin as [Hin|Hin].
    { apply (Array_some_elem SidebarItem.id) in Hin. congruence. }
    apply (Array_some_elem Page.id) in Hin. rewrite Hin.
    exists (js "Page"). split; [apply list_elem_of_further, list_elem_of_here|]. done.
Qed.

Lemma addItem_existing_id_rejected_witness :
  ∃ what, what ∈ [js "Sidebar item"; js "Page"] ∧
    Stdio.addItem home_item (healthy (Some home_State)) =
      (Normal (text_response
         (js "Failed to add item: " ++ what ++ js " with ID " ++ js "home"
            ++ js " already exists")), healthy (Some home_State))
    ∧ Http.addItem (CM := Latin1) home_item (healthy (Some home_State)) =
        (Normal (text_response
           (js "Failed to add item: " ++ what ++ js " with ID " ++ js "home"
              ++ js " already exists")), healthy (Some home_State)).
Proof.
  apply (addItem_existing_id_rejected (CM := Latin1) (healthy (Some home_State)) home_item).
  - reflexivity.
  - left. simpl. apply list_elem_of_here.
Defined.

(** ** deleteItem *)

(** Both servers have the same deleteItem. *)
Lemma Http_deleteItem_eq : Http.deleteItem = Stdio.deleteItem.
Proof. reflexivity. Qed.

Lemma deleteItem_not_found db id :
  select_fault db = None →
  id ∉ SidebarItem.id <$> sidebar (stored db) →
  id ∉ Page.id <$> pages (stored db) →
  Stdio.deleteItem id db = (Normal (not_found id), db).
Proof.
  intros Hsel Hs Hp. unfold Stdio.deleteItem. run_select Hsel. fold (stored db).
  by rewrite (findIndex_absent SidebarItem.id), (findIndex_absent Page.id).
Qed.

(** A deleteItem that finds the id and writes: what the row holds after. *)
Lemma deleteItem_found db id :
  select_fault db = None → update_fault db = None →
  id ∈ SidebarItem.id <$> sidebar (stored db) ∨ id ∈ Page.id <$> pages (stored db) →
  let c := {| sidebar := remove_first SidebarItem.id id (sidebar (stored db));
              pages := remove_first Page.id id (pages (stored db)) |} in
  (Stdio.deleteItem id db).2 =
    {| config := Some c; select_fault := None; update_fault := None;
       update_calls := update_calls db ++ [c] |}.
Proof.
  intros Hsel Hupd Hin c. unfold Stdio.deleteItem. run_select Hsel. fold (stored db).
  pose proof (splice_found SidebarItem.id id (sidebar (stored db))) as Hs.
  pose proof (splice_found Page.id id (pages (stored db))) as Hp.
  destruct (Array_findIndex _ (sidebar (stored db))) as [[i s]|] eqn:Es;
    destruct (Array_findIndex _ (pages (stored db))) as [[j p]|] eqn:Ep;
    try (rewrite Async_bind_run, update_config_ok by done; cbv beta iota;
         rewrite Async_ret_run; simpl; rewrite Hs, Hp, Hsel, Hupd; done).
  exfalso. destruct Hin as [Hin|Hin].
  - apply (first_occurrence SidebarItem.id) in Hin as (l1 & e & l2 & Hl & He & Hl1).
    rewrite Hl, (findIndex_first SidebarItem.id) in Es; done.
  - apply (first_occurrence Page.id) in Hin as (l1 & e & l2 & Hl & He & Hl1).
    rewrite Hl, (findIndex_first Page.id) in Ep; done.
Qed.

(** C6. After a successful select: when the id is in neither sequence,
    deleteItem answers with the not-found text and leaves the database as
    it was; when the id is in the sidebar only, the write that follows
    stores the config without the sidebar item found and with the pages as
    they were; and the same with the two sequences exchanged. *)
Theorem deleteItem_one_sequence (db : Db) (id : jsstring) :
  select_fault db = None →
  (id ∉ SidebarItem.id <$> sidebar (stored db) →
   id ∉ Page.id <$> pages (stored db) →
   Stdio.deleteItem id db = (Normal (not_found id), db))
  ∧ (update_fault db = None →
     ∀ s1 e s2,
       sidebar (stored db) = s1 ++ e :: s2 →
       SidebarItem.id e = id → id ∉ SidebarItem.id <$> s1 →
       id ∉ Page.id <$> pages (stored db) →
       stored (Stdio.deleteItem id db).2 =
         {| sidebar := s1 ++ s2; pages := pages (stored db) |})
  ∧ (update_fault db = None →
     ∀ p1 e p2,
       pages (stored db) = p1 ++ e :: p2 →
       Page.id e = id → id ∉ Page.id <$> p1 →
       id ∉ SidebarItem.id <$> sidebar (stored db) →
       stored (Stdio.deleteItem id db).2 =
         {| sidebar := sidebar (stored db); pages := p1 ++ p2 |}).
Proof.
  intros Hsel. split_and!.
  - by apply deleteItem_not_found.
  - intros Hupd s1 e s2 Hs He Hs1 Hp.
    rewrite deleteItem_found; [|done..|].
    + by rewrite stored_Some, Hs, remove_first_middle, remove_first_absent.
    + left. rewrite Hs, fmap_app, fmap_cons, He. apply elem_of_app. right. apply list_elem_of_here.
  - intros Hupd p1 e p2 Hp He Hp1 Hs.
    rewrite deleteItem_found; [|done..|].
    + by rewrite stored_Some, Hp, remove_first_middle, remove_first_absent.
    + right. rewrite Hp, fmap_app, fmap_cons, He. apply elem_of_app. right. apply list_elem_of_here.
Qed.

Lemma deleteItem_one_sequence_witness :
  stored (Stdio.deleteItem (js "a") (healthy (Some sidebar_only_State))).2 =
    {| sidebar := [] ++ []; pages := pages (stored (healthy (Some sidebar_only_State))) |}.
Proof.
  refine (proj1 (proj2 (deleteItem_one_sequence (healthy (Some sidebar_only_State)) (js "a") _))
            _ [] _ [] _ _ _ _).
  - reflexivity.
  - reflexivity.
  - reflexivity.
  - reflexivity.
  - simpl. apply not_elem_of_nil.
  - simpl. apply not_elem_of_nil.
Defined.

(** C9. After a successful select and with a successful write, deleteItem
    takes out of each sequence the first entry with the id and nothing
    else: whatever follows that entry, entries with the same id included,
    stays in place and in order. *)
Theorem deleteItem_removes_first_match (db : Db) (id : jsstring) :
  select_fault db = None → update_fault db = None →
  (∀ s1 e s2,
     sidebar (stored db) = s1 ++ e :: s2 →
     SidebarItem.id e = id → id ∉ SidebarItem.id <$> s1 →
     sidebar (stored (Stdio.deleteItem id db).2) = s1 ++ s2
     ∧ pages (stored (Stdio.deleteItem id db).2) = remove_first Page.id id (pages (stored db)))
  ∧ (∀ p1 e p2,
       pages (stored db) = p1 ++ e :: p2 →
       Page.id e = id → id ∉ Page.id <$> p1 →
       pages (stored (Stdio.deleteItem id db).2) = p1 ++ p2
       ∧ sidebar (stored (Stdio.deleteItem id db).2)
           = remove_first SidebarItem.id id (sidebar (stored db))).
Proof.
  intros Hsel Hupd. split.
  - intros s1 e s2 Hs He Hs1.
    rewrite deleteItem_found; [|done..|].
    + by rewrite stored_Some, Hs, remove_first_middle.
    + left. rewrite Hs, fmap_app, fmap_cons, He. apply elem_of_app. right. apply list_elem_of_here.
  - intros p1 e p2 Hp He Hp1.
    rewrite deleteItem_found; [|done..|].
    + by rewrite stored_Some, Hp, remove_first_middle.
    + right. rewrite Hp, fmap_app, fmap_cons, He. apply elem_of_app. right. apply list_elem_of_here.
Qed.

Lemma deleteItem_removes_first_match_witness :
  sidebar (stored (Stdio.deleteItem (js "a") (healthy (Some repeated_State))).2) =
    [] ++ [ {| SidebarItem.id := js "b"; SidebarItem.label := js "Other";
               SidebarItem.active := false |};
            {| SidebarItem.id := js "a"; SidebarItem.label := js "Second";
               SidebarItem.active := true |} ]
  ∧ pages (stored (Stdio.deleteItem (js "a") (healthy (Some repeated_State))).2) =
      remove_first Page.id (js "a") (pages (stored (healthy (Some repeated_State)))).
Proof.
  refine (proj1 (deleteItem_removes_first_match (healthy (Some repeated_State)) (js "a") _ _)
            [] _ _ _ _ _).
  - reflexivity.
  - reflexivity.
  - reflexivity.
  - reflexivity.
  - simpl. apply not_elem_of_nil.
Defined.

(** ** GET /api/config *)

(** C8. When the select succeeds, GET /api/config answers 200 with the
    stored config itself when the column holds one and with the empty
    default when it holds none; nothing is written. *)
Theorem getConfig_stored_or_default (db : Db) :
  select_fault db = None →
  Http.getConfig db =
    (Normal {| status := 200;
               body := ConfigBody match config db with
                                  | Some c => c
                                  | None => {| pages := []; sidebar := [] |}
                                  end |}, db).
Proof.
  intros Hsel. unfold Http.getConfig. run_select Hsel.
  by destruct (config db).
Qed.

Lemma getConfig_stored_or_default_witness :
  Http.getConfig (healthy None) =
    (Normal {| status := 200; body := ConfigBody {| pages := []; sidebar := [] |} |},
     healthy None).
Proof. apply (getConfig_stored_or_default (healthy None)). reflexivity. Defined.

(** ** Failures of the store *)

Ltac handler_cases db :=
  unfold try_catch; rewrite Async_bind_run; unfold select_config;
  destruct (select_fault db) as [[?|?]|] eqn:?; cbv beta iota;
  repeat match goal with
    | |- context [if Array_some ?p ?l then _ else _] => destruct (Array_some p l) eqn:?
    | |- context [match Array_findIndex ?p ?l with _ => _ end] =>
        destruct (Array_findIndex p l) as [[??]|] eqn:?
    | |- context [match colliding_id ?a ?b ?c with _ => _ end] =>
        destruct (colliding_id a b c) eqn:?
    end;
  rewrite ?Async_bind_run; unfold update_config;
  destruct (update_fault db) as [[?|?]|] eqn:?; cbv beta iota;
  rewrite ?Async_ret_run; cbn [fst snd update_calls].

Ltac select_case := intros; simplify_eq; try reflexivity.

Ltac update_case :=
  let Hcalls := fresh "Hcalls" in
  intros ? ? Hcalls; simplify_eq; try reflexivity;
  exfalso; apply Hcalls; reflexivity.

Ltac reports :=
  split_and!;
    [ eexists; reflexivity | select_case | select_case | update_case | update_case ].

Lemma Stdio_addItem_reports item : reports_failures "add" (Stdio.addItem item).
Proof.
  intros db. unfold Stdio.addItem. handler_cases db.
  all: reports.
Qed.

Lemma Stdio_deleteItem_reports id : reports_failures "delete" (Stdio.deleteItem id).
Proof.
  intros db. unfold Stdio.deleteItem. handler_cases db.
  all: reports.
Qed.

Lemma Stdio_updateItem_reports oldId newItem :
  reports_failures "update" (Stdio.updateItem oldId newItem).
Proof.
  intros db. unfold Stdio.updateItem. handler_cases db.
  all: reports.
Qed.

Lemma Http_addItem_reports {CM : CaseMapping} item : reports_failures "add" (Http.addItem item).
Proof.
  intros db. unfold Http.addItem. handler_cases db.
  all: reports.
Qed.

Lemma Http_updateItem_reports {CM : CaseMapping} oldId newItem :
  reports_failures "update" (Http.updateItem oldId newItem).
Proof.
  intros db. unfold Http.updateItem. handler_cases db.
  all: reports.
Qed.

(** C7. Whatever the arguments and whatever the select and the update do
    (succeed, answer with an error, or reject), each of the three handlers
    of both servers ends normally with a response of one text entry, and
    the text carries the message of the store's failure when there was
    one. *)
Theorem handlers_never_throw {CM : CaseMapping}
    (item : Item.t) (id oldId : jsstring) (newItem : NewItem.t) :
  reports_failures "add" (Http.addItem item)
  ∧ reports_failures "delete" (Http.deleteItem id)
  ∧ reports_failures "update" (Http.updateItem oldId newItem)
  ∧ reports_failures "add" (Stdio.addItem item)
  ∧ reports_failures "delete" (Stdio.deleteItem id)
  ∧ reports_failures "update" (Stdio.updateItem oldId newItem).
Proof.
  split_and!.
  - apply Http_addItem_reports.
  - rewrite Http_deleteItem_eq. apply Stdio_deleteItem_reports.
  - apply Http_updateItem_reports.
  - apply Stdio_addItem_reports.
  - apply Stdio_deleteItem_reports.
  - apply Stdio_updateItem_reports.
Qed.

(** ** addItem on a fresh id *)

Lemma Stdio_addItem_fresh db item :
  select_fault db = None → update_fault db = None →
  Item.id item ∉ SidebarItem.id <$> sidebar (stored db) →
  Item.id item ∉ Page.id <$> pages (stored db) →
  stored (Stdio.addItem item db).2 =
    {| sidebar := sidebar (stored db) ++
         [ {| SidebarItem.id := Item.id item;
              SidebarItem.label := default (js "Item " ++ Item.id item) (Item.label item);
              SidebarItem.active := default false (Item.active item) |} ];
       pages := pages (stored db) ++
         [ {| Page.id := Item.id item;
              Page.title := default (js "Page " ++ Item.id item) (Item.title item);
              Page.content := default [] (Item.content item) |} ] |}.
Proof.
  intros Hsel Hupd Hs Hp. unfold Stdio.addItem. run_select Hsel. fold (stored db).
  rewrite (Array_some_absent SidebarItem.id), (Array_some_absent Page.id) by done.
  rewrite Async_bind_run, update_config_ok by done. reflexivity.
Qed.

Lemma Http_addItem_fresh {CM : CaseMapping} db item :
  select_fault db = None → update_fault db = None →
  Item.id item ∉ SidebarItem.id <$> sidebar (stored db) →
  Item.id item ∉ Page.id <$> pages (stored db) →
  stored (Http.addItem item db).2 =
    {| sidebar := sidebar (stored db) ++
         [ {| SidebarItem.id := toLowerCase (Item.id item);
              SidebarItem.label := default (capitalizeFirstLetter (Item.id item)) (Item.label item);
              SidebarItem.active := default false (Item.active item) |} ];
       pages := pages (stored db) ++
         [ {| Page.id := toLowerCase (Item.id item);
              Page.title := default (js "Page " ++ Item.id item) (Item.title item);
              Page.content := default [] (Item.content item) |} ] |}.
Proof.
  intros Hsel Hupd Hs Hp. unfold Http.addItem. run_select Hsel. fold (stored db).
  rewrite (Array_some_absent SidebarItem.id), (Array_some_absent Page.id) by done.
  rewrite Async_bind_run, update_config_ok by done. reflexivity.
Qed.

(** C3, as the spec has it, fails on the stdio server: from the empty
    config, addItem of [{ id: "home", title: "Home" }] stores the sidebar
    label "Item home", not "Home". *)
Lemma Stdio_addItem_home_label :
  sidebar (stored (Stdio.addItem home_item (healthy (Some empty_State))).2) =
    [ {| SidebarItem.id := js "home"; SidebarItem.label := js "Item home";
         SidebarItem.active := false |} ]
  ∧ stored (Stdio.addItem home_item (healthy (Some empty_State))).2 ≠ home_State.
Proof. split; [reflexivity | discriminate]. Qed.

(** C3, amended. After a successful select, when the item's id is in
    neither sequence and the write succeeds, addItem appends exactly one
    sidebar item and one page, both with the same id (the item's id on the
    stdio server, its lower-cased form on the HTTP server), so each
    sequence grows by one. The omitted label defaults to "Item " followed
    by the id on the stdio server and to [capitalizeFirstLetter] of the id
    on the HTTP server; so from the empty config, addItem of
    [{ id: "home", title: "Home" }] on the HTTP server stores exactly one
    page [home, Home, ""] and one sidebar item [home, Home, false]. *)
Theorem addItem_fresh_id_appends {CM : CaseMapping} (db : Db) (item : Item.t) :
  select_fault db = None → update_fault db = None →
  Item.id item ∉ SidebarItem.id <$> sidebar (stored db) →
  Item.id item ∉ Page.id <$> pages (stored db) →
  (∃ s p,
     stored (Stdio.addItem item db).2 =
       {| sidebar := sidebar (stored db) ++ [s]; pages := pages (stored db) ++ [p] |}
     ∧ SidebarItem.id s = Item.id item ∧ Page.id p = Item.id item
     ∧ SidebarItem.label s = default (js "Item " ++ Item.id item) (Item.label item)
     ∧ length (sidebar (stored (Stdio.addItem item db).2)) = S (length (sidebar (stored db)))
     ∧ length (pages (stored (Stdio.addItem item db).2)) = S (length (pages (stored db))))
  ∧ (∃ s p,
       stored (Http.addItem item db).2 =
         {| sidebar := sidebar (stored db) ++ [s]; pages := pages (stored db) ++ [p] |}
       ∧ SidebarItem.id s = toLowerCase (Item.id item)
       ∧ Page.id p = toLowerCase (Item.id item)
       ∧ SidebarItem.label s = default (capitalizeFirstLetter (Item.id item)) (Item.label item)
       ∧ length (sidebar (stored (Http.addItem item db).2)) = S (length (sidebar (stored db)))
       ∧ length (pages (stored (Http.addItem item db).2)) = S (length (pages (stored db))))
  ∧ stored (Http.addItem (CM := Latin1) home_item (healthy (Some empty_State))).2
      = home_State.
Proof.
  intros Hsel Hupd Hs Hp. split_and!.
  - eexists _, _. rewrite Stdio_addItem_fresh by done. simpl.
    rewrite !length_app. simpl. split_and!; try reflexivity; lia.
  - eexists _, _. rewrite Http_addItem_fresh by done. simpl.
    rewrite !length_app. simpl. split_and!; try reflexivity; lia.
  - reflexivity.
Qed.

Lemma addItem_fresh_id_appends_witness :
  ∃ s p,
    stored (Stdio.addItem home_item (healthy None)).2 =
      {| sidebar := sidebar (stored (healthy None)) ++ [s];
         pages := pages (stored (healthy None)) ++ [p] |}
    ∧ SidebarItem.id s = js "home" ∧ Page.id p = js "home"
    ∧ SidebarItem.label s = js "Item home"
    ∧ length (sidebar (stored (Stdio.addItem home_item (healthy None)).2)) = 1
    ∧ length (pages (stored (Stdio.addItem home_item (healthy None)).2)) = 1.
Proof.
  refine (proj1 (addItem_fresh_id_appends (CM := Latin1) (healthy None) home_item _ _ _ _)).
  - reflexivity.
  - reflexivity.
  - simpl. apply not_elem_of_nil.
  - simpl. apply not_elem_of_nil.
Defined.

(** ** updateItem *)

(** An updateItem of the stdio server that finds the id, passes the
    duplicate check and writes: what the row holds after. *)
Lemma Stdio_updateItem_found db oldId newItem :
  select_fault db = None → update_fault db = None →
  oldId ∈ SidebarItem.id <$> sidebar (stored db) ∨ oldId ∈ Page.id <$> pages (stored db) →
  colliding_id (NewItem.id newItem) oldId (stored db) = None →
  stored (Stdio.updateItem oldId newItem db).2 =
    {| sidebar :=
         update_first SidebarItem.id oldId
           (λ original,
              {| SidebarItem.id := default (SidebarItem.id original) (NewItem.id newItem);
                 SidebarItem.label := default (SidebarItem.label original) (NewItem.label newItem);
                 SidebarItem.active := default (SidebarItem.active original) (NewItem.active newItem) |})
           (sidebar (stored db));
       pages :=
         update_first Page.id oldId
           (λ original,
              {| Page.id := default (Page.id original) (NewItem.id newItem);
                 Page.title := default (Page.title original) (NewItem.title newItem);
                 Page.content := default (Page.content original) (NewItem.content newItem) |})
           (pages (stored db)) |}.
Proof.
  intros Hsel Hupd Hin Hcol. unfold Stdio.updateItem. run_select Hsel. fold (stored db).
  rewrite Hcol.
  rewrite <- (assign_found SidebarItem.id), <- (assign_found Page.id).
  destruct (Array_findIndex _ (sidebar (stored db))) as [[i s]|] eqn:Es;
    destruct (Array_findIndex _ (pages (stored db))) as [[j p]|] eqn:Ep;
    try (rewrite Async_bind_run, update_config_ok by done; reflexivity).
  exfalso. apply findIndex_None_absent in Es, Ep. tauto.
Qed.

Lemma Http_updateItem_found {CM : CaseMapping} db oldId newItem :
  select_fault db = None → update_fault db = None →
  oldId ∈ SidebarItem.id <$> sidebar (stored db) ∨ oldId ∈ Page.id <$> pages (stored db) →
  colliding_id (NewItem.id newItem) oldId (stored db) = None →
  stored (Http.updateItem oldId newItem db).2 =
    {| sidebar :=
         update_first SidebarItem.id oldId
           (λ _,
              {| SidebarItem.id := or_else (toLowerCase <$> NewItem.id newItem) oldId;
                 SidebarItem.label :=
                   or_else (NewItem.label newItem)
                     (capitalizeFirstLetter (or_else (NewItem.id newItem) oldId));
                 SidebarItem.active := default false (NewItem.active newItem) |})
           (sidebar (stored db));
       pages :=
         update_first Page.id oldId
           (λ _,
              {| Page.id := or_else (toLowerCase <$> NewItem.id newItem) oldId;
                 Page.title :=
                   or_else (NewItem.title newItem)
                     (js "Page " ++ or_else (NewItem.id newItem) oldId);
                 Page.content :=
                   or_else (NewItem.content newItem)
                     (js "Welcome to the page " ++ or_else (NewItem.id newItem) oldId) |})
           (pages (stored db)) |}.
Proof.
  intros Hsel Hupd Hin Hcol. unfold Http.updateItem. run_select Hsel. fold (stored db).
  rewrite Hcol.
  rewrite <- (assign_found SidebarItem.id), <- (assign_found Page.id).
  destruct (Array_findIndex _ (sidebar (stored db))) as [[i s]|] eqn:Es;
    destruct (Array_findIndex _ (pages (stored db))) as [[j p]|] eqn:Ep;
    try (rewrite Async_bind_run, update_config_ok by done; reflexivity).
  exfalso. apply findIndex_None_absent in Es, Ep. tauto.
Qed.

Lemma colliding_id_same oldId newId c :
  newId = None ∨ newId = Some oldId → colliding_id newId oldId c = None.
Proof.
  intros [->| ->]; [done|]. unfold colliding_id, strict_eq.
  rewrite bool_decide_eq_true_2 by done. simpl. by rewrite andb_false_r.
Qed.

(** C2, as the spec has it, fails on the HTTP server: updateItem with no
    field at all resets the label, the active flag, the title and the
    content of the entry found. *)
Lemma Http_updateItem_resets_omitted :
  stored (Http.updateItem (CM := Latin1) (js "a") no_fields (healthy (Some custom_State))).2 =
    {| pages := [ {| Page.id := js "a"; Page.title := js "Page a";
                     Page.content := js "Welcome to the page a" |} ];
       sidebar := [ {| SidebarItem.id := js "a"; SidebarItem.label := js "A";
                       SidebarItem.active := false |} ] |}
  ∧ stored (Http.updateItem (CM := Latin1) (js "a") no_fields (healthy (Some custom_State))).2
      ≠ custom_State.
Proof. split; [reflexivity | discriminate]. Qed.

(** C2, amended. On the stdio server, after a successful select and with
    a successful write, updateItem whose new id is absent or equal to the
    old id rebuilds the first entry with that id in each sequence: the id
    stays, a field given in the update is taken from it, and a field left
    out keeps the value it had (label and active of the sidebar item,
    title and content of the page). Every other entry, and a sequence
    without the id, stays as it was. *)
Theorem updateItem_same_id_keeps_omitted (db : Db) (oldId : jsstring) (newItem : NewItem.t) :
  select_fault db = None → update_fault db = None →
  NewItem.id newItem = None ∨ NewItem.id newItem = Some oldId →
  (∀ s1 e s2,
     sidebar (stored db) = s1 ++ e :: s2 →
     SidebarItem.id e = oldId → oldId ∉ SidebarItem.id <$> s1 →
     sidebar (stored (Stdio.updateItem oldId newItem db).2) =
       s1 ++ {| SidebarItem.id := oldId;
                SidebarItem.label := default (SidebarItem.label e) (NewItem.label newItem);
                SidebarItem.active := default (SidebarItem.active e) (NewItem.active newItem) |}
          :: s2)
  ∧ (∀ p1 e p2,
       pages (stored db) = p1 ++ e :: p2 →
       Page.id e = oldId → oldId ∉ Page.id <$> p1 →
       pages (stored (Stdio.updateItem oldId newItem db).2) =
         p1 ++ {| Page.id := oldId;
                  Page.title := default (Page.title e) (NewItem.title newItem);
                  Page.content := default (Page.content e) (NewItem.content newItem) |}
            :: p2)
  ∧ (oldId ∉ SidebarItem.id <$> sidebar (stored db) →
     oldId ∈ Page.id <$> pages (stored db) →
     sidebar (stored (Stdio.updateItem oldId newItem db).2) = sidebar (stored db))
  ∧ (oldId ∉ Page.id <$> pages (stored db) →
     oldId ∈ SidebarItem.id <$> sidebar (stored db) →
     pages (stored (Stdio.updateItem oldId newItem db).2) = pages (stored db)).
Proof.
  intros Hsel Hupd Hid.
  assert (Hkeep : ∀ old : jsstring, old = oldId → default old (NewItem.id newItem) = oldId).
  { intros old ->. by destruct Hid as [-> | ->]. }
  pose proof (colliding_id_same oldId _ (stored db) Hid) as Hcol.
  split_and!.
  - intros s1 e s2 Hs He Hs1.
    rewrite Stdio_updateItem_found; [|done..| |done].
    + simpl. rewrite Hs, update_first_middle by done. by rewrite Hkeep.
    + left. rewrite Hs. by apply elem_of_middle.
  - intros p1 e p2 Hp He Hp1.
    rewrite Stdio_updateItem_found; [|done..| |done].
    + simpl. rewrite Hp, update_first_middle by done. by rewrite Hkeep.
    + right. rewrite Hp. by apply elem_of_middle.
  - intros Hs Hp. rewrite Stdio_updateItem_found; [|by auto..].
    simpl. by apply update_first_absent.
  - intros Hp Hs. rewrite Stdio_updateItem_found; [|by auto..].
    simpl. by apply update_first_absent.
Qed.

Lemma updateItem_same_id_keeps_omitted_witness :
  sidebar (stored (Stdio.updateItem (js "a") (only_label (js "New"))
                     (healthy (Some custom_State))).2) =
    [] ++ {| SidebarItem.id := js "a";
             SidebarItem.label := default (js "Custom") (Some (js "New"));
             SidebarItem.active := default true None |} :: [].
Proof.
  refine (proj1 (updateItem_same_id_keeps_omitted (healthy (Some custom_State)) (js "a")
                   (only_label (js "New")) _ _ _)
            [] ({| SidebarItem.id := js "a"; SidebarItem.label := js "Custom";
                   SidebarItem.active := true |}) [] _ _ _).
  - reflexivity.
  - reflexivity.
  - left. reflexivity.
  - reflexivity.
  - reflexivity.
  - simpl. apply not_elem_of_nil.
Defined.

Lemma colliding_id_found oldId newId c :
  newId ≠ [] → newId ≠ oldId →
  newId ∈ SidebarItem.id <$> sidebar c ∨ newId ∈ Page.id <$> pages c →
  colliding_id (Some newId) oldId c = Some newId.
Proof.
  intros Hne Hdiff Hin. unfold colliding_id.
  assert (truthy newId = true) as -> by (by destruct newId).
  assert (strict_eq newId oldId = false) as ->.
  { unfold strict_eq. by rewrite bool_decide_eq_false_2. }
  simpl. destruct Hin as [Hin|Hin].
  - apply (Array_some_elem SidebarItem.id) in Hin. by rewrite Hin.
  - apply (Array_some_elem Page.id) in Hin. rewrite Hin. by rewrite orb_true_r.
Qed.

(** C5, as the spec has it, fails when the new id is the empty string:
    the duplicate check is guarded by the truthiness of [newItem.id], so
    with an entry of id "" in the config, updateItem("a", { id: "" })
    passes it and writes on both servers. The stdio server stores the
    empty id a second time; the HTTP server keeps the id "a" and resets
    the other fields. *)
Lemma updateItem_empty_new_id_not_rejected :
  (SidebarItem.id <$>
     sidebar (stored (Stdio.updateItem (js "a") (only_id (js "")) (healthy (Some empty_id_State))).2)
     = [js ""; js ""]
   ∧ (Stdio.updateItem (js "a") (only_id (js "")) (healthy (Some empty_id_State))).2
       ≠ healthy (Some empty_id_State))
  ∧ (SidebarItem.label <$>
       sidebar (stored (Http.updateItem (CM := Latin1) (js "a") (only_id (js ""))
                          (healthy (Some empty_id_State))).2)
       = [js "Item "; js "A"]
     ∧ (Http.updateItem (CM := Latin1) (js "a") (only_id (js "")) (healthy (Some empty_id_State))).2
         ≠ healthy (Some empty_id_State)).
Proof. split_and!; (reflexivity || discriminate). Qed.

(** C5, amended. After a successful select, updateItem on an id that the
    config has, with a new id that is not empty, differs from the old id
    and is the id of a sidebar item or of a page, answers on both servers
    with the text "Failed to update item: New ID ... already exists" and
    leaves the database as it was: the row is the same and no update was
    issued. *)
Theorem updateItem_colliding_id_rejected {CM : CaseMapping}
    (db : Db) (oldId newId : jsstring) (newItem : NewItem.t) :
  select_fault db = None →
  oldId ∈ SidebarItem.id <$> sidebar (stored db) ∨ oldId ∈ Page.id <$> pages (stored db) →
  NewItem.id newItem = Some newId → newId ≠ [] → newId ≠ oldId →
  newId ∈ SidebarItem.id <$> sidebar (stored db) ∨ newId ∈ Page.id <$> pages (stored db) →
  Stdio.updateItem oldId newItem db =
    (Normal (text_response (js "Failed to update item: New ID " ++ newId ++ js " already exists")),
     db)
  ∧ Http.updateItem oldId newItem db =
      (Normal (text_response (js "Failed to update item: New ID " ++ newId ++ js " already exists")),
       db).
Proof.
  intros Hsel Hold Hid Hne Hdiff Hnew.
  pose proof (colliding_id_found oldId newId (stored db) Hne Hdiff Hnew) as Hcol.
  split.
  - unfold Stdio.updateItem. run_select Hsel. fold (stored db). rewrite Hid, Hcol.
    destruct (Array_findIndex _ (sidebar (stored db))) as [[i s]|] eqn:Es; [reflexivity|].
    destruct (Array_findIndex _ (pages (stored db))) as [[j p]|] eqn:Ep; [reflexivity|].
    exfalso. apply findIndex_None_absent in Es, Ep. tauto.
  - unfold Http.updateItem. run_select Hsel. fold (stored db). rewrite Hid, Hcol.
    destruct (Array_findIndex _ (sidebar (stored db))) as [[i s]|] eqn:Es; [reflexivity|].
    destruct (Array_findIndex _ (pages (stored db))) as [[j p]|] eqn:Ep; [reflexivity|].
    exfalso. apply findIndex_None_absent in Es, Ep. tauto.
Qed.

Lemma updateItem_colliding_id_rejected_witness :
  Stdio.updateItem (js "") (only_id (js "a")) (healthy (Some empty_id_State)) =
    (Normal (text_response (js "Failed to update item: New ID " ++ js "a" ++ js " already exists")),
     healthy (Some empty_id_State))
  ∧ Http.updateItem (CM := Latin1) (js "") (only_id (js "a")) (healthy (Some empty_id_State)) =
      (Normal (text_response (js "Failed to update item: New ID " ++ js "a" ++ js " already exists")),
       healthy (Some empty_id_State)).
Proof.
  apply (updateItem_colliding_id_rejected (CM := Latin1) (healthy (Some empty_id_State))
           (js "") (js "a") (only_id (js "a"))).
  - reflexivity.
  - left. simpl. apply list_elem_of_here.
  - reflexivity.
  - discriminate.
  - discriminate.
  - left. simpl. apply list_elem_of_further, list_elem_of_here.
Defined.

(** ** The uniqueness of ids *)

(** C1, at a failing input. The config has the single id "home" and
    addItem of the HTTP server gets [{ id: "Home" }]: the duplicate scan
    compares "Home" with "home" and lets the item through, the id is
    stored lower-cased, and both sequences end up with "home" twice. *)
Theorem Http_addItem_duplicates_folded_id :
  unique_ids home_State
  ∧ ∃ t,
      (Http.addItem (CM := Latin1) Home_item (healthy (Some home_State))).1
        = Normal (text_response (js "Successfully added item with ID Home" ++ t))
      ∧ SidebarItem.id <$>
          sidebar (stored (Http.addItem (CM := Latin1) Home_item (healthy (Some home_State))).2)
          = [js "home"; js "home"]
      ∧ Page.id <$>
          pages (stored (Http.addItem (CM := Latin1) Home_item (healthy (Some home_State))).2)
          = [js "home"; js "home"]
      ∧ ¬ unique_ids (stored (Http.addItem (CM := Latin1) Home_item (healthy (Some home_State))).2).
Proof.
  split.
  - split; simpl; apply NoDup_singleton.
  - eexists. split_and!; [reflexivity..|].
    intros [Hp _]. simpl in Hp. apply NoDup_cons in Hp as [Hp _].
    apply Hp, list_elem_of_here.
Qed.

(** The same folding after the scan in updateItem of the HTTP server
    (renaming "a" to "Home" next to "home") and in the stateless addItem. *)
Lemma Http_updateItem_duplicates_folded_id :
  unique_ids home_and_a_State
  ∧ SidebarItem.id <$>
      sidebar (stored (Http.updateItem (CM := Latin1) (js "a") (only_id (js "Home"))
                         (healthy (Some home_and_a_State))).2)
      = [js "home"; js "home"]
  ∧ Page.id <$>
      pages (stored (Http.updateItem (CM := Latin1) (js "a") (only_id (js "Home"))
                       (healthy (Some home_and_a_State))).2)
      = [js "home"; js "home"].
Proof.
  split_and!; [|reflexivity..].
  split; simpl; apply NoDup_cons; (split; [|apply NoDup_singleton]);
    intros [=]%list_elem_of_singleton.
Qed.

Lemma Stateless_addItem_duplicates_folded_id :
  ∃ r, Stateless.addItem (CM := Latin1) stateless_Home_args = Normal r
       ∧ ((λ c, Stateless.SidebarItem.id <$> Stateless.sidebar c) <$> Stateless.updatedConfig r)
           = Some [js "home"; js "home"]
       ∧ ((λ c, Stateless.Page.id <$> Stateless.pages c) <$> Stateless.updatedConfig r)
           = Some [js "home"; js "home"].
Proof. eexists. split_and!; reflexivity. Qed.

(** The handlers that store the id as it was compared keep the ids
    distinct, whatever the store does. *)

Ltac select_cases db :=
  unfold try_catch; rewrite Async_bind_run; unfold select_config;
  destruct (select_fault db) as [[?|?]|] eqn:?; cbv beta iota;
  [done | done | fold (stored db)].

Ltac update_cases db :=
  rewrite Async_bind_run; unfold update_config;
  destruct (update_fault db) as [[?|?]|] eqn:?; cbv beta iota;
  [done | done | rewrite Async_ret_run; cbn [snd]; rewrite stored_Some].

(** X7. Whatever the store does, deleteItem (the same on both servers)
    keeps the ids distinct: from a config in which no two pages and no two
    sidebar items share an id it leaves such a config. *)
Lemma deleteItem_unique db id :
  unique_ids (stored db) → unique_ids (stored (Stdio.deleteItem id db).2).
Proof.
  intros Huniq. unfold Stdio.deleteItem. select_cases db.
  assert (unique_ids {| sidebar := remove_first SidebarItem.id id (sidebar (stored db));
                        pages := remove_first Page.id id (pages (stored db)) |}) as Hgoal.
  { destruct Huniq. split; simpl; by apply remove_first_NoDup. }
  rewrite <- (splice_found SidebarItem.id), <- (splice_found Page.id) in Hgoal.
  destruct (Array_findIndex _ (sidebar (stored db))) as [[i s]|];
    destruct (Array_findIndex _ (pages (stored db))) as [[j p]|]; [update_cases db; done..|done].
Qed.

(** X8. Whatever the store does, addItem of the stdio server keeps the
    ids distinct. *)
Lemma Stdio_addItem_unique db item :
  unique_ids (stored db) → unique_ids (stored (Stdio.addItem item db).2).
Proof.
  intros Huniq. unfold Stdio.addItem. select_cases db.
  destruct (Array_some _ (sidebar (stored db))) eqn:Es; [done|].
  destruct (Array_some _ (pages (stored db))) eqn:Ep; [done|].
  apply (Array_some_false_absent SidebarItem.id) in Es.
  apply (Array_some_false_absent Page.id) in Ep.
  update_cases db. destruct Huniq.
  split; simpl; by apply push_NoDup.
Qed.

(** X9. Whatever the store does, addItem of the HTTP server keeps the ids
    distinct when the item's id is its own lower case. *)
Lemma Http_addItem_unique {CM : CaseMapping} db item :
  toLowerCase (Item.id item) = Item.id item →
  unique_ids (stored db) → unique_ids (stored (Http.addItem item db).2).
Proof.
  intros Hlow Huniq. unfold Http.addItem. select_cases db.
  destruct (Array_some _ (sidebar (stored db))) eqn:Es; [done|].
  destruct (Array_some _ (pages (stored db))) eqn:Ep; [done|].
  apply (Array_some_false_absent SidebarItem.id) in Es.
  apply (Array_some_false_absent Page.id) in Ep.
  update_cases db. destruct Huniq.
  split; simpl; apply push_NoDup; simpl; rewrite ?Hlow; done.
Qed.

Lemma colliding_id_None_fresh newId oldId c :
  colliding_id (Some newId) oldId c = None → newId ≠ [] →
  newId = oldId
  ∨ (newId ∉ SidebarItem.id <$> sidebar c) ∧ (newId ∉ Page.id <$> pages c).
Proof.
  unfold colliding_id. intros Hcol Hne.
  assert (truthy newId = true) as Ht by (by destruct newId). rewrite Ht in Hcol.
  destruct (strict_eq newId oldId) eqn:Heq.
  { left. by apply strict_eq_true. }
  right. simpl in Hcol.
  destruct (Array_some _ (sidebar c)) eqn:Es; [done|].
  destruct (Array_some _ (pages c)) eqn:Ep; [done|].
  split.
  - by apply (Array_some_false_absent SidebarItem.id).
  - by apply (Array_some_false_absent Page.id).
Qed.

(** X10. Whatever the store does, updateItem of the stdio server keeps the
    ids distinct unless the new id is the empty string, which the duplicate
    check does not look at. *)
Lemma Stdio_updateItem_unique db oldId newItem :
  NewItem.id newItem ≠ Some [] →
  unique_ids (stored db) → unique_ids (stored (Stdio.updateItem oldId newItem db).2).
Proof.
  intros Hne Huniq. unfold Stdio.updateItem. select_cases db.
  destruct (colliding_id (NewItem.id newItem) oldId (stored db)) eqn:Hcol.
  { destruct (Array_findIndex _ (sidebar (stored db))) as [[??]|]; [done|].
    by destruct (Array_findIndex _ (pages (stored db))) as [[??]|]. }
  assert (∀ old : jsstring, old = oldId →
            default old (NewItem.id newItem) = oldId
            ∨ (default old (NewItem.id newItem) ∉ SidebarItem.id <$> sidebar (stored db))
              ∧ (default old (NewItem.id newItem) ∉ Page.id <$> pages (stored db))) as Hid.
  { intros old ->. destruct (NewItem.id newItem) as [newId|] eqn:E; simpl; [|by left].
    apply colliding_id_None_fresh in Hcol; [done|]. congruence. }
  assert (unique_ids
    {| sidebar :=
         update_first SidebarItem.id oldId
           (λ original,
              {| SidebarItem.id := default (SidebarItem.id original) (NewItem.id newItem);
                 SidebarItem.label := default (SidebarItem.label original) (NewItem.label newItem);
                 SidebarItem.active := default (SidebarItem.active original) (NewItem.active newItem) |})
           (sidebar (stored db));
       pages :=
         update_first Page.id oldId
           (λ original,
              {| Page.id := default (Page.id original) (NewItem.id newItem);
                 Page.title := default (Page.title original) (NewItem.title newItem);
                 Page.content := default (Page.content original) (NewItem.content newItem) |})
           (pages (stored db)) |}) as Hgoal.
  { destruct Huniq.
    split; simpl; (apply update_first_NoDup; [done|]);
      intros e _ He; simpl; destruct (Hid _ He) as [?|[??]]; auto. }
  rewrite <- (assign_found SidebarItem.id), <- (assign_found Page.id) in Hgoal.
  destruct (Array_findIndex _ (sidebar (stored db))) as [[i s]|];
    destruct (Array_findIndex _ (pages (stored db))) as [[j p]|]; [update_cases db; done..|done].
Qed.

(** ** capitalizeFirstLetter *)

Lemma upper_unit_ascii (c : N) : (c < 128)%N → length (upper_unit c) = 1.
Proof.
  intros Hc. unfold upper_unit.
  destruct ((97 <=? c)%N && (c <=? 122)%N); [done|].
  destruct (c =? 181)%N eqn:E1; [apply N.eqb_eq in E1; lia|].
  destruct (c =? 223)%N eqn:E2; [apply N.eqb_eq in E2; lia|].
  destruct ((224 <=? c)%N && (c <=? 254)%N && negb (c =? 247)%N); [done|].
  destruct (c =? 255)%N; done.
Qed.

(** C10, as the spec has it, fails on the length: the upper case of
    U+00DF is the two code units "SS", so the result is one longer than
    the argument. *)
Lemma capitalizeFirstLetter_sharp_s_longer :
  capitalizeFirstLetter (CM := Latin1) [223%N] = js "SS"
  ∧ length (capitalizeFirstLetter (CM := Latin1) [223%N]) ≠ length [223%N].
Proof. split; [reflexivity | discriminate]. Qed.

(** C10, amended. capitalizeFirstLetter gives back the empty string, and
    for any other string the upper case of its first code unit followed by
    the rest as it was. The result is as long as the argument exactly when
    the argument is empty or the upper case of its first code unit is one
    code unit, which is so for every ASCII code unit. The default label
    of the HTTP server for an item with the empty id is the empty string. *)
Theorem capitalizeFirstLetter_spec {CM : CaseMapping} :
  capitalizeFirstLetter [] = []
  ∧ (∀ c rest, capitalizeFirstLetter (c :: rest) = toUpperCase [c] ++ rest)
  ∧ (∀ s, length (capitalizeFirstLetter s) = length s
          ↔ s = [] ∨ ∃ c rest, s = c :: rest ∧ length (toUpperCase [c]) = 1)
  ∧ (∀ c rest, (c < 128)%N →
       length (capitalizeFirstLetter (CM := Latin1) (c :: rest)) = length (c :: rest))
  ∧ (∀ db item,
       select_fault db = None → update_fault db = None →
       Item.id item = [] → Item.label item = None →
       [] ∉ SidebarItem.id <$> sidebar (stored db) →
       [] ∉ Page.id <$> pages (stored db) →
       ∃ s, sidebar (stored (Http.addItem item db).2) = sidebar (stored db) ++ [s]
            ∧ SidebarItem.label s = []).
Proof.
  split_and!.
  - reflexivity.
  - reflexivity.
  - intros [|c rest]; simpl.
    + split; [by left | done].
    + unfold charAt0, slice1. simpl. rewrite take_0, drop_0, length_app. split.
      * intros Hlen. right. exists c, rest. split; [done | lia].
      * intros [?|(c' & rest' & [= <- <-] & Hlen)]; [done | lia].
  - intros c rest Hc. simpl. rewrite app_nil_r, length_app, upper_unit_ascii by done.
    unfold slice1. simpl. by rewrite drop_0.
  - intros db item Hsel Hupd Hid Hlabel Hs Hp.
    rewrite Http_addItem_fresh by (rewrite ?Hid; done).
    eexists. split; [reflexivity|]. simpl. by rewrite Hlabel, Hid.
Qed.

Lemma capitalizeFirstLetter_spec_witness :
  ∃ s, sidebar (stored (Http.addItem (CM := Latin1) empty_id_item (healthy None)).2)
         = sidebar (stored (healthy None)) ++ [s]
       ∧ SidebarItem.label s = [].
Proof.
  refine (proj2 (proj2 (proj2 (proj2 (capitalizeFirstLetter_spec (CM := Latin1)))))
            (healthy None) empty_id_item _ _ _ _ _ _).
  - reflexivity.
  - reflexivity.
  - reflexivity.
  - reflexivity.
  - simpl. apply not_elem_of_nil.
  - simpl. apply not_elem_of_nil.
Defined.

(** * Further properties of the handlers *)

(** ** What the response text tells *)

Ltac not_successfully :=
  let k := fresh "k" in
  let Hk := fresh "Hk" in
  intros [k Hk]; cbn in Hk; discriminate Hk.

Ltac told :=
  let Ht := fresh "Ht" in
  intros Ht; cbn [fst] in Ht; injection Ht as <-;
  split; [split | ];
    [ first [ not_successfully
            | intros _; split; [done | cbn [update_calls];
                intros Hcalls; apply (f_equal length) in Hcalls;
                rewrite length_app in Hcalls; simpl in Hcalls; lia ] ]
    | first [ intros [? Hcalls]; simplify_eq; exfalso; apply Hcalls; reflexivity
            | intros _; eexists; cbn; reflexivity ]
    | first [ intros _; reflexivity
            | intros Hno; exfalso; apply Hno; eexists; cbn; reflexivity ] ].

Ltac other_index :=
  repeat match goal with
    | |- context [Array_findIndex ?p ?l] => destruct (Array_findIndex p l) as [[??]|]
    end.

Lemma Stdio_addItem_told item : success_is_told (Stdio.addItem item).
Proof.
  intros db t. unfold Stdio.addItem. handler_cases db.
  all: told.
Qed.

Lemma Stdio_deleteItem_told id : success_is_told (Stdio.deleteItem id).
Proof.
  intros db t. unfold Stdio.deleteItem. handler_cases db.
  all: told.
Qed.

Lemma Stdio_updateItem_told oldId newItem : success_is_told (Stdio.updateItem oldId newItem).
Proof.
  intros db t. unfold Stdio.updateItem. handler_cases db.
  all: other_index; told.
Qed.

Lemma Http_addItem_told {CM : CaseMapping} item : success_is_told (Http.addItem item).
Proof.
  intros db t. unfold Http.addItem. handler_cases db.
  all: told.
Qed.

Lemma Http_updateItem_told {CM : CaseMapping} oldId newItem :
  success_is_told (Http.updateItem oldId newItem).
Proof.
  intros db t. unfold Http.updateItem. handler_cases db.
  all: other_index; told.
Qed.

(** X1. For each of the three tools of both servers and every outcome of
    the store, the response text starts with "Successfully" exactly when
    the handler issued an update and the update succeeded; with any other
    text the stored row is what it was before the call. *)
Theorem success_text_iff_written {CM : CaseMapping}
    (item : Item.t) (id oldId : jsstring) (newItem : NewItem.t) :
  success_is_told (Http.addItem item)
  ∧ success_is_told (Http.deleteItem id)
  ∧ success_is_told (Http.updateItem oldId newItem)
  ∧ success_is_told (Stdio.addItem item)
  ∧ success_is_told (Stdio.deleteItem id)
  ∧ success_is_told (Stdio.updateItem oldId newItem).
Proof.
  split_and!.
  - apply Http_addItem_told.
  - rewrite Http_deleteItem_eq. apply Stdio_deleteItem_told.
  - apply Http_updateItem_told.
  - apply Stdio_addItem_told.
  - apply Stdio_deleteItem_told.
  - apply Stdio_updateItem_told.
Qed.

(** ** The POST routes *)

Lemma route_valid {A} (handler : A → Async ToolResponse) (validatedData : A)
    (on_error : jsstring → Async HttpResponse) op db :
  reports_failures op (handler validatedData) →
  ∃ t, (handler validatedData db).1 = Normal (text_response t)
       ∧ try_catch
           (v ← parse (Valid validatedData);
            result ← handler v;
            mret {| status := 200; body := TextBody result |})
           on_error db =
         (Normal {| status := 200; body := TextBody (text_response t) |},
          (handler validatedData db).2).
Proof.
  intros Hreports. destruct (Hreports db) as [[t Ht] _]. exists t. split; [done|].
  unfold try_catch, parse. rewrite Async_bind_run, Async_ret_run, Async_bind_run.
  destruct (handler validatedData db) as [r db']. simpl in Ht. by subst r.
Qed.

(** X2. A POST route answers with status 400 when the body fails its
    schema, and then the database is not touched; for a body that passes
    it answers with status 200 and the response of the tool handler, also
    when the select or the update failed. *)
Theorem post_routes_status {CM : CaseMapping} (db : Db) :
  (∀ m, Routes.post_addItem (Invalid m) db
          = (Normal (bad_request (js "Error executing addItem: " ++ m)), db))
  ∧ (∀ m, Routes.post_deleteItem (Invalid m) db
            = (Normal (bad_request (js "Error executing deleteItem: " ++ m)), db))
  ∧ (∀ m, Routes.post_updateItem (Invalid m) db
            = (Normal (bad_request (js "Error executing updateItem: " ++ m)), db))
  ∧ (∀ item, ∃ t,
       (Http.addItem item db).1 = Normal (text_response t)
       ∧ Routes.post_addItem (Valid item) db
           = (Normal {| status := 200; body := TextBody (text_response t) |},
              (Http.addItem item db).2))
  ∧ (∀ id, ∃ t,
       (Http.deleteItem id db).1 = Normal (text_response t)
       ∧ Routes.post_deleteItem (Valid id) db
           = (Normal {| status := 200; body := TextBody (text_response t) |},
              (Http.deleteItem id db).2))
  ∧ (∀ oldId newItem, ∃ t,
       (Http.updateItem oldId newItem db).1 = Normal (text_response t)
       ∧ Routes.post_updateItem (Valid (oldId, newItem)) db
           = (Normal {| status := 200; body := TextBody (text_response t) |},
              (Http.updateItem oldId newItem db).2)).
Proof.
  split_and!; try (intros m; reflexivity).
  - intros item. apply (route_valid Http.addItem item _ "add"), Http_addItem_reports.
  - intros id. apply (route_valid Http.deleteItem id _ "delete").
    rewrite Http_deleteItem_eq. apply Stdio_deleteItem_reports.
  - intros oldId newItem.
    apply (route_valid (λ v, Http.updateItem v.1 v.2) (oldId, newItem) _ "update").
    apply Http_updateItem_reports.
Qed.

(** ** GET /api/config *)

(** X3. GET /api/config never throws and never changes the database:
    an error of the select is answered with status 500 and the text
    "Failed to load config from database: ..." with the message, a
    rejected select with status 500 and the text "Error fetching
    config: ..." with the message, and in every case the database is
    left as it was. *)
Theorem getConfig_read_only (db : Db) :
  (Http.getConfig db).2 = db
  ∧ (∃ r, (Http.getConfig db).1 = Normal r)
  ∧ (∀ m, select_fault db = Some (ErrorField m) →
       (Http.getConfig db).1 =
         Normal {| status := 500; body := TextBody (load_failed m) |})
  ∧ (∀ m, select_fault db = Some (Rejected m) →
       (Http.getConfig db).1 =
         Normal {| status := 500;
                   body := TextBody (text_response (js "Error fetching config: " ++ m)) |}).
Proof.
  unfold Http.getConfig, try_catch. rewrite Async_bind_run. unfold select_config.
  destruct (select_fault db) as [[m|m]|]; cbv beta iota; rewrite ?Async_ret_run; cbn [fst snd];
    (split_and!; [done | by eexists | by intros ? [= <-] | by intros ? [= <-]]).
Qed.

(** ** What a call can do to the two sequences *)

(** X4. Whatever the store does, addItem leaves both sequences as they
    were or appends exactly one entry to each, the two new entries having
    the same id: it never extends one sequence without the other. *)
Theorem addItem_both_or_neither {CM : CaseMapping} (db : Db) (item : Item.t) :
  (stored (Stdio.addItem item db).2 = stored db
   ∨ ∃ s p, SidebarItem.id s = Page.id p
            ∧ stored (Stdio.addItem item db).2 =
                {| sidebar := sidebar (stored db) ++ [s]; pages := pages (stored db) ++ [p] |})
  ∧ (stored (Http.addItem item db).2 = stored db
     ∨ ∃ s p, SidebarItem.id s = Page.id p
              ∧ stored (Http.addItem item db).2 =
                  {| sidebar := sidebar (stored db) ++ [s]; pages := pages (stored db) ++ [p] |}).
Proof.
  split.
  - unfold Stdio.addItem. handler_cases db;
      first [ left; reflexivity | right; eexists _, _; split; [|reflexivity]; reflexivity ].
  - unfold Http.addItem. handler_cases db;
      first [ left; reflexivity | right; eexists _, _; split; [|reflexivity]; reflexivity ].
Qed.

Lemma stored_same db sf uf calls :
  stored {| config := config db; select_fault := sf; update_fault := uf;
            update_calls := calls |} = stored db.
Proof. reflexivity. Qed.

Lemma length_delete_le {A} (l : list A) i : length l ≤ S (length (delete i l)).
Proof.
  revert i. induction l as [|x l IH]; intros [|i]; simpl; try lia.
  specialize (IH i). lia.
Qed.

(** X5. Whatever the store does, deleteItem only removes: each sequence
    of the config after the call is a subsequence of the one before, in
    the same order, and is shorter by one entry at most. *)
Theorem deleteItem_only_removes (db : Db) (id : jsstring) :
  sidebar (stored (Stdio.deleteItem id db).2) `sublist_of` sidebar (stored db)
  ∧ pages (stored (Stdio.deleteItem id db).2) `sublist_of` pages (stored db)
  ∧ length (sidebar (stored db)) ≤ S (length (sidebar (stored (Stdio.deleteItem id db).2)))
  ∧ length (pages (stored db)) ≤ S (length (pages (stored (Stdio.deleteItem id db).2))).
Proof.
  unfold Stdio.deleteItem. handler_cases db; fold (stored db);
    rewrite ?stored_Some, ?stored_same; cbn [sidebar pages]; unfold Array_splice1;
    (split_and!; first [ done | apply sublist_delete | apply length_delete_le | lia ]).
Qed.

Ltac other_index_eq :=
  repeat match goal with
    | |- context [Array_findIndex ?p ?l] => destruct (Array_findIndex p l) as [[??]|] eqn:?
    end.

Lemma findIndex_lookup {A} (key : A → jsstring) x (l : list A) i e :
  Array_findIndex (λ e, strict_eq (key e) x) l = Some (i, e) →
  l !! i = Some e ∧ key e = x.
Proof.
  unfold Array_findIndex. intros (Hi & He & _)%list_find_Some.
  split; [done|]. by apply strict_eq_true.
Qed.

Lemma assign_other {A} (key : A → jsstring) x (l : list A) i e e' j y :
  Array_findIndex (λ e, strict_eq (key e) x) l = Some (i, e) →
  l !! j = Some y → key y ≠ x → <[i := e']> l !! j = Some y.
Proof.
  intros [Hi He]%findIndex_lookup Hj Hy.
  rewrite list_lookup_insert_ne; [done|]. intros ->. congruence.
Qed.

(** X6. Whatever the store does, updateItem of either server never adds
    or removes an entry and never touches an entry whose id is not
    [oldId]: both sequences keep their length, and every such entry is
    found afterwards at the position it had. *)
Theorem updateItem_keeps_other_entries {CM : CaseMapping}
    (db : Db) (oldId : jsstring) (newItem : NewItem.t) :
  keeps_other_entries oldId (stored db) (stored (Stdio.updateItem oldId newItem db).2)
  ∧ keeps_other_entries oldId (stored db) (stored (Http.updateItem oldId newItem db).2).
Proof.
  unfold keeps_other_entries. split.
  - unfold Stdio.updateItem. handler_cases db; fold (stored db) in *; rewrite ?stored_Some, ?stored_same;
      try (split_and!; done).
    all: other_index_eq; cbn [mbind option_bind sidebar pages];
      (split_and!;
        [ by rewrite ?length_insert | by rewrite ?length_insert
        | intros; first [ by eapply (assign_other SidebarItem.id) | done ]
        | intros; first [ by eapply (assign_other Page.id) | done ] ]).
  - unfold Http.updateItem. handler_cases db; fold (stored db) in *; rewrite ?stored_Some, ?stored_same;
      try (split_and!; done).
    all: other_index_eq; cbn [mbind option_bind sidebar pages];
      (split_and!;
        [ by rewrite ?length_insert | by rewrite ?length_insert
        | intros; first [ by eapply (assign_other SidebarItem.id) | done ]
        | intros; first [ by eapply (assign_other Page.id) | done ] ]).
Qed.

(** ** More on the uniqueness of ids *)

Lemma custom_State_unique : unique_ids (stored (healthy (Some custom_State))).
Proof. split; simpl; apply NoDup_singleton. Qed.

Lemma deleteItem_unique_witness :
  unique_ids (stored (Stdio.deleteItem (js "a") (healthy (Some custom_State))).2).
Proof. apply deleteItem_unique, custom_State_unique. Defined.

Lemma Stdio_addItem_unique_witness :
  unique_ids (stored (Stdio.addItem home_item (healthy (Some custom_State))).2).
Proof. apply Stdio_addItem_unique, custom_State_unique. Defined.

Lemma Http_addItem_unique_witness :
  unique_ids (stored (Http.addItem (CM := Latin1) home_item (healthy (Some custom_State))).2).
Proof.
  apply (Http_addItem_unique (CM := Latin1)).
  - reflexivity.
  - apply custom_State_unique.
Defined.

Lemma Stdio_updateItem_unique_witness :
  unique_ids (stored (Stdio.updateItem (js "a") (only_id (js "b"))
                        (healthy (Some custom_State))).2).
Proof.
  apply Stdio_updateItem_unique.
  - discriminate.
  - apply custom_State_unique.
Defined.

(** X11. Whatever the store does, updateItem of the HTTP server keeps the
    ids distinct when the new id is absent or is its own lower case; the
    empty new id is among these, since the handler then keeps the old id. *)
Theorem Http_updateItem_unique {CM : CaseMapping} (db : Db) (oldId : jsstring)
    (newItem : NewItem.t) :
  (∀ newId, NewItem.id newItem = Some newId → toLowerCase newId = newId) →
  unique_ids (stored db) → unique_ids (stored (Http.updateItem oldId newItem db).2).
Proof.
  intros Hlow Huniq. unfold Http.updateItem. select_cases db.
  destruct (colliding_id (NewItem.id newItem) oldId (stored db)) eqn:Hcol.
  { destruct (Array_findIndex _ (sidebar (stored db))) as [[??]|]; [done|].
    by destruct (Array_findIndex _ (pages (stored db))) as [[??]|]. }
  assert (or_else (toLowerCase <$> NewItem.id newItem) oldId = oldId
          ∨ (or_else (toLowerCase <$> NewItem.id newItem) oldId
               ∉ SidebarItem.id <$> sidebar (stored db))
            ∧ (or_else (toLowerCase <$> NewItem.id newItem) oldId
                 ∉ Page.id <$> pages (stored db))) as Hid.
  { destruct (NewItem.id newItem) as [newId|] eqn:E; simpl; [|by left].
    rewrite (Hlow newId) by done. destruct newId as [|c newId]; [by left|].
    simpl. by apply colliding_id_None_fresh in Hcol. }
  assert (unique_ids
    {| sidebar :=
         update_first SidebarItem.id oldId
           (λ _,
              {| SidebarItem.id := or_else (toLowerCase <$> NewItem.id newItem) oldId;
                 SidebarItem.label :=
                   or_else (NewItem.label newItem)
                     (capitalizeFirstLetter (or_else (NewItem.id newItem) oldId));
                 SidebarItem.active := default false (NewItem.active newItem) |})
           (sidebar (stored db));
       pages :=
         update_first Page.id oldId
           (λ _,
              {| Page.id := or_else (toLowerCase <$> NewItem.id newItem) oldId;
                 Page.title :=
                   or_else (NewItem.title newItem)
                     (js "Page " ++ or_else (NewItem.id newItem) oldId);
                 Page.content :=
                   or_else (NewItem.content newItem)
                     (js "Welcome to the page " ++ or_else (NewItem.id newItem) oldId) |})
           (pages (stored db)) |}) as Hgoal.
  { destruct Huniq.
    split; simpl; (apply update_first_NoDup; [done|]);
      intros e _ He; simpl; destruct Hid as [?|[??]]; auto. }
  rewrite <- (assign_found SidebarItem.id), <- (assign_found Page.id) in Hgoal.
  destruct (Array_findIndex _ (sidebar (stored db))) as [[i s]|];
    destruct (Array_findIndex _ (pages (stored db))) as [[j p]|]; [update_cases db; done..|done].
Qed.

Lemma Http_updateItem_unique_witness :
  unique_ids (stored (Http.updateItem (CM := Latin1) (js "a") (only_id (js "b"))
                        (healthy (Some custom_State))).2).
Proof.
  apply (Http_updateItem_unique (CM := Latin1)).
  - intros newId [= <-]. reflexivity.
  - apply custom_State_unique.
Defined.

(** ** One update at most *)

Lemma getConfig_stored_or_default_aux db :
  select_fault db = None →
  Http.getConfig db
    = (Normal {| status := 200; body := ConfigBody (stored db) |}, db).
Proof. intros Hsel. unfold Http.getConfig. by run_select Hsel. Qed.

Ltac same_or_one :=
  repeat match goal with
    | H : select_fault _ = _ |- _ => rewrite ?H; clear H
    | H : update_fault _ = _ |- _ => rewrite ?H; clear H
    end;
  first [ left; reflexivity | right; eexists; reflexivity ].

Lemma Stdio_addItem_once item : updates_at_most_once (Stdio.addItem item).
Proof. intros db. unfold one_update, Stdio.addItem. handler_cases db; same_or_one. Qed.

Lemma Stdio_deleteItem_once id : updates_at_most_once (Stdio.deleteItem id).
Proof. intros db. unfold one_update, Stdio.deleteItem. handler_cases db; same_or_one. Qed.

Lemma Stdio_updateItem_once oldId newItem :
  updates_at_most_once (Stdio.updateItem oldId newItem).
Proof. intros db. unfold one_update, Stdio.updateItem. handler_cases db; same_or_one. Qed.

Lemma Http_addItem_once {CM : CaseMapping} item : updates_at_most_once (Http.addItem item).
Proof. intros db. unfold one_update, Http.addItem. handler_cases db; same_or_one. Qed.

Lemma Http_updateItem_once {CM : CaseMapping} oldId newItem :
  updates_at_most_once (Http.updateItem oldId newItem).
Proof. intros db. unfold one_update, Http.updateItem. handler_cases db; same_or_one. Qed.

(** X12. A call of any of the three tools of either server leaves the
    database as it was or issues exactly one update; the row then holds
    the config of that update when the update succeeded and is unchanged
    when it failed. *)
Theorem handlers_update_at_most_once {CM : CaseMapping}
    (item : Item.t) (id oldId : jsstring) (newItem : NewItem.t) :
  updates_at_most_once (Http.addItem item)
  ∧ updates_at_most_once (Http.deleteItem id)
  ∧ updates_at_most_once (Http.updateItem oldId newItem)
  ∧ updates_at_most_once (Stdio.addItem item)
  ∧ updates_at_most_once (Stdio.deleteItem id)
  ∧ updates_at_most_once (Stdio.updateItem oldId newItem).
Proof.
  split_and!.
  - apply Http_addItem_once.
  - rewrite Http_deleteItem_eq. apply Stdio_deleteItem_once.
  - apply Http_updateItem_once.
  - apply Stdio_addItem_once.
  - apply Stdio_deleteItem_once.
  - apply Stdio_updateItem_once.
Qed.

(** What GET /api/config answers after a handler that updates at most
    once has issued an update that went through. *)
Lemma getConfig_after (handler : Async ToolResponse) db c :
  updates_at_most_once handler →
  select_fault db = None → update_fault db = None →
  update_calls (handler db).2 = update_calls db ++ [c] →
  Http.getConfig (handler db).2
    = (Normal {| status := 200; body := ConfigBody c |}, (handler db).2).
Proof.
  intros Honce Hsel Hupd Hcalls.
  destruct (Honce db) as [Hsame|[c' Hone]].
  - rewrite Hsame in Hcalls. apply (f_equal length) in Hcalls.
    rewrite length_app in Hcalls. simpl in Hcalls. lia.
  - unfold one_update in Hone. rewrite Hone in Hcalls |- *. simpl in Hcalls.
    apply app_inj_tail in Hcalls as [_ ->].
    rewrite getConfig_stored_or_default_aux by done. by rewrite Hupd.
Qed.

(** X13. On the HTTP server, when a tool handler has issued an update
    that went through, the GET /api/config that follows answers 200 with
    exactly the config of that update. *)
Theorem getConfig_after_write {CM : CaseMapping} (db : Db)
    (item : Item.t) (id oldId : jsstring) (newItem : NewItem.t) (c : State) :
  select_fault db = None → update_fault db = None →
  (update_calls (Http.addItem item db).2 = update_calls db ++ [c] →
   Http.getConfig (Http.addItem item db).2
     = (Normal {| status := 200; body := ConfigBody c |}, (Http.addItem item db).2))
  ∧ (update_calls (Http.deleteItem id db).2 = update_calls db ++ [c] →
     Http.getConfig (Http.deleteItem id db).2
       = (Normal {| status := 200; body := ConfigBody c |}, (Http.deleteItem id db).2))
  ∧ (update_calls (Http.updateItem oldId newItem db).2 = update_calls db ++ [c] →
     Http.getConfig (Http.updateItem oldId newItem db).2
       = (Normal {| status := 200; body := ConfigBody c |},
          (Http.updateItem oldId newItem db).2)).
Proof.
  intros Hsel Hupd. split_and!; intros Hcalls.
  - by apply getConfig_after; [apply Http_addItem_once|..].
  - apply getConfig_after; [|done..].
    rewrite Http_deleteItem_eq. apply Stdio_deleteItem_once.
  - by apply getConfig_after; [apply Http_updateItem_once|..].
Qed.

Lemma getConfig_after_write_witness :
  Http.getConfig (Http.addItem (CM := Latin1) home_item (healthy None)).2
    = (Normal {| status := 200; body := ConfigBody home_State |},
       (Http.addItem (CM := Latin1) home_item (healthy None)).2).
Proof.
  refine (proj1 (getConfig_after_write (CM := Latin1) (healthy None) home_item [] []
                   no_fields home_State _ _) _); reflexivity.
Defined.

(** ** updateItem on an id that the config does not have *)

(** X14. After a successful select, updateItem on an id that is in
    neither sequence answers on both servers with the not-found text and
    leaves the database as it was, whatever the new item holds. *)
Theorem updateItem_absent_id {CM : CaseMapping} (db : Db) (oldId : jsstring)
    (newItem : NewItem.t) :
  select_fault db = None →
  oldId ∉ SidebarItem.id <$> sidebar (stored db) →
  oldId ∉ Page.id <$> pages (stored db) →
  Stdio.updateItem oldId newItem db = (Normal (not_found oldId), db)
  ∧ Http.updateItem oldId newItem db = (Normal (not_found oldId), db).
Proof.
  intros Hsel Hs Hp. split.
  - unfold Stdio.updateItem. run_select Hsel. fold (stored db).
    by rewrite (findIndex_absent SidebarItem.id), (findIndex_absent Page.id).
  - unfold Http.updateItem. run_select Hsel. fold (stored db).
    by rewrite (findIndex_absent SidebarItem.id), (findIndex_absent Page.id).
Qed.

Lemma updateItem_absent_id_witness :
  Stdio.updateItem (js "b") (only_id (js "a")) (healthy (Some custom_State))
    = (Normal (not_found (js "b")), healthy (Some custom_State))
  ∧ Http.updateItem (CM := Latin1) (js "b") (only_id (js "a")) (healthy (Some custom_State))
      = (Normal (not_found (js "b")), healthy (Some custom_State)).
Proof.
  apply (updateItem_absent_id (CM := Latin1)).
  - reflexivity.
  - simpl. intros [=]%list_elem_of_singleton.
  - simpl. intros [=]%list_elem_of_singleton.
Defined.

(** ** Calls in a row *)

Lemma Stdio_addItem_fresh_db db item :
  select_fault db = None → update_fault db = None →
  Item.id item ∉ SidebarItem.id <$> sidebar (stored db) →
  Item.id item ∉ Page.id <$> pages (stored db) →
  (Stdio.addItem item db).2 =
    written db
      {| sidebar := sidebar (stored db) ++
           [ {| SidebarItem.id := Item.id item;
                SidebarItem.label := default (js "Item " ++ Item.id item) (Item.label item);
                SidebarItem.active := default false (Item.active item) |} ];
         pages := pages (stored db) ++
           [ {| Page.id := Item.id item;
                Page.title := default (js "Page " ++ Item.id item) (Item.title item);
                Page.content := default [] (Item.content item) |} ] |}.
Proof.
  intros Hsel Hupd Hs Hp. unfold Stdio.addItem. run_select Hsel. fold (stored db).
  rewrite (Array_some_absent SidebarItem.id), (Array_some_absent Page.id) by done.
  rewrite Async_bind_run, update_config_ok by done. reflexivity.
Qed.

Lemma Http_addItem_fresh_db {CM : CaseMapping} db item :
  select_fault db = None → update_fault db = None →
  Item.id item ∉ SidebarItem.id <$> sidebar (stored db) →
  Item.id item ∉ Page.id <$> pages (stored db) →
  (Http.addItem item db).2 =
    written db
      {| sidebar := sidebar (stored db) ++
           [ {| SidebarItem.id := toLowerCase (Item.id item);
                SidebarItem.label := default (capitalizeFirstLetter (Item.id item)) (Item.label item);
                SidebarItem.active := default false (Item.active item) |} ];
         pages := pages (stored db) ++
           [ {| Page.id := toLowerCase (Item.id item);
                Page.title := default (js "Page " ++ Item.id item) (Item.title item);
                Page.content := default [] (Item.content item) |} ] |}.
Proof.
  intros Hsel Hupd Hs Hp. unfold Http.addItem. run_select Hsel. fold (stored db).
  rewrite (Array_some_absent SidebarItem.id), (Array_some_absent Page.id) by done.
  rewrite Async_bind_run, update_config_ok by done. reflexivity.
Qed.

Lemma elem_of_push {A} (key : A → jsstring) x (l : list A) e :
  key e = x → x ∈ key <$> (l ++ [e]).
Proof. by apply elem_of_middle. Qed.

(** X15. On the stdio server a successful addItem makes the same addItem
    fail: the second call answers that a sidebar item with the id already
    exists and leaves the database as the first call left it. *)
Theorem addItem_twice_rejected (db : Db) (item : Item.t) :
  select_fault db = None → update_fault db = None →
  Item.id item ∉ SidebarItem.id <$> sidebar (stored db) →
  Item.id item ∉ Page.id <$> pages (stored db) →
  Stdio.addItem item (Stdio.addItem item db).2
    = (Normal (sidebar_exists (Item.id item)), (Stdio.addItem item db).2).
Proof.
  intros Hsel Hupd Hs Hp. rewrite Stdio_addItem_fresh_db by done.
  set (db1 := written _ _). unfold Stdio.addItem.
  assert (select_fault db1 = None) as Hsel1 by done.
  run_select Hsel1.
  rewrite (proj2 (Array_some_elem SidebarItem.id _ _)); [done|].
  by apply (elem_of_push SidebarItem.id).
Qed.

Lemma addItem_twice_rejected_witness :
  Stdio.addItem home_item (Stdio.addItem home_item (healthy None)).2
    = (Normal (sidebar_exists (js "home")), (Stdio.addItem home_item (healthy None)).2).
Proof.
  apply (addItem_twice_rejected (healthy None) home_item).
  - reflexivity.
  - reflexivity.
  - simpl. apply not_elem_of_nil.
  - simpl. apply not_elem_of_nil.
Defined.

Lemma State_eta (c : State) : {| sidebar := sidebar c; pages := pages c |} = c.
Proof. by destruct c. Qed.

Lemma remove_first_push {A} (key : A → jsstring) x (l : list A) e :
  key e = x → x ∉ key <$> l → remove_first key x (l ++ [e]) = l.
Proof. intros He Hl. rewrite remove_first_middle by done. apply app_nil_r. Qed.

(** X16. Adding an item whose id is new and then deleting that id gives
    the config back as it was: on the stdio server with the id of the
    item, on the HTTP server with its lower-cased form, which is the id
    stored, when that form is new to the config as well. *)
Theorem addItem_then_deleteItem {CM : CaseMapping} (db : Db) (item : Item.t) :
  select_fault db = None → update_fault db = None →
  Item.id item ∉ SidebarItem.id <$> sidebar (stored db) →
  Item.id item ∉ Page.id <$> pages (stored db) →
  stored (Stdio.deleteItem (Item.id item) (Stdio.addItem item db).2).2 = stored db
  ∧ (toLowerCase (Item.id item) ∉ SidebarItem.id <$> sidebar (stored db) →
     toLowerCase (Item.id item) ∉ Page.id <$> pages (stored db) →
     stored (Http.deleteItem (toLowerCase (Item.id item)) (Http.addItem item db).2).2
       = stored db).
Proof.
  intros Hsel Hupd Hs Hp. split.
  - rewrite Stdio_addItem_fresh_db by done.
    rewrite deleteItem_found; [|done|done|].
    + rewrite stored_Some. unfold written. rewrite stored_Some. cbn [sidebar pages].
      rewrite (remove_first_push SidebarItem.id), (remove_first_push Page.id) by done.
      apply State_eta.
    + left. unfold written. rewrite stored_Some. cbn [sidebar].
      by apply (elem_of_push SidebarItem.id).
  - intros Hs' Hp'. rewrite Http_addItem_fresh_db by done. rewrite Http_deleteItem_eq.
    rewrite deleteItem_found; [|done|done|].
    + rewrite stored_Some. unfold written. rewrite stored_Some. cbn [sidebar pages].
      rewrite (remove_first_push SidebarItem.id), (remove_first_push Page.id) by done.
      apply State_eta.
    + left. unfold written. rewrite stored_Some. cbn [sidebar].
      by apply (elem_of_push SidebarItem.id).
Qed.

Lemma addItem_then_deleteItem_witness :
  stored (Stdio.deleteItem (js "home") (Stdio.addItem home_item (healthy (Some custom_State))).2).2
    = stored (healthy (Some custom_State)).
Proof.
  refine (proj1 (addItem_then_deleteItem (CM := Latin1) (healthy (Some custom_State))
                   home_item _ _ _ _)).
  - reflexivity.
  - reflexivity.
  - simpl. intros [=]%list_elem_of_singleton.
  - simpl. intros [=]%list_elem_of_singleton.
Defined.

Lemma remove_first_gone {A} (key : A → jsstring) x (l : list A) :
  NoDup (key <$> l) → x ∉ key <$> remove_first key x l.
Proof.
  induction l as [|e l IH]; simpl; [intros _; apply not_elem_of_nil|].
  intros [Hnotin Hnd]%NoDup_cons. case_decide as Hx.
  - by rewrite <- Hx.
  - simpl. apply not_elem_of_cons. split; [done | by apply IH].
Qed.

(** X17. With distinct ids, a deleteItem that goes through removes the id
    for good: after it the id is in neither sequence, and a second
    deleteItem of the same id answers with the not-found text and leaves
    the database as the first call left it. *)
Theorem deleteItem_twice_not_found (db : Db) (id : jsstring) :
  select_fault db = None → update_fault db = None →
  unique_ids (stored db) →
  (id ∉ SidebarItem.id <$> sidebar (stored (Stdio.deleteItem id db).2))
  ∧ (id ∉ Page.id <$> pages (stored (Stdio.deleteItem id db).2))
  ∧ Stdio.deleteItem id (Stdio.deleteItem id db).2
      = (Normal (not_found id), (Stdio.deleteItem id db).2).
Proof.
  intros Hsel Hupd [Hp Hs].
  assert ((id ∉ SidebarItem.id <$> sidebar (stored (Stdio.deleteItem id db).2))
          ∧ (id ∉ Page.id <$> pages (stored (Stdio.deleteItem id db).2))
          ∧ select_fault (Stdio.deleteItem id db).2 = None) as (Hs' & Hp' & Hsel').
  { destruct (decide (id ∈ SidebarItem.id <$> sidebar (stored db)
                      ∨ id ∈ Page.id <$> pages (stored db))) as [Hin|Hout].
    - rewrite deleteItem_found by done. rewrite stored_Some. cbn [sidebar pages].
      split_and!; [by apply remove_first_gone | by apply remove_first_gone | done].
    - rewrite deleteItem_not_found by tauto. cbn [snd]. tauto. }
  split_and!; [done..|]. by apply deleteItem_not_found.
Qed.

Lemma deleteItem_twice_not_found_witness :
  (js "a" ∉ SidebarItem.id <$>
      sidebar (stored (Stdio.deleteItem (js "a") (healthy (Some custom_State))).2))
  ∧ (js "a" ∉ Page.id <$>
      pages (stored (Stdio.deleteItem (js "a") (healthy (Some custom_State))).2))
  ∧ Stdio.deleteItem (js "a") (Stdio.deleteItem (js "a") (healthy (Some custom_State))).2
      = (Normal (not_found (js "a")),
         (Stdio.deleteItem (js "a") (healthy (Some custom_State))).2).
Proof.
  apply (deleteItem_twice_not_found (healthy (Some custom_State)) (js "a")).
  - reflexivity.
  - reflexivity.
  - apply custom_State_unique.
Defined.

(** ** Renaming with updateItem *)

Lemma colliding_id_fresh newId oldId c :
  newId ∉ SidebarItem.id <$> sidebar c → newId ∉ Page.id <$> pages c →
  colliding_id (Some newId) oldId c = None.
Proof.
  intros Hs Hp. unfold colliding_id.
  rewrite (Array_some_absent SidebarItem.id), (Array_some_absent Page.id) by done.
  simpl. by rewrite andb_false_r.
Qed.

(** X18. On the stdio server, after a successful select and with a
    successful write, updateItem with a new id that the config does not
    have gives that id to the first entry with the old id in each
    sequence; the fields given in the update are taken from it, the
    fields left out keep their values, and the entries around it stay. *)
Theorem Stdio_updateItem_renames (db : Db) (oldId newId : jsstring) (newItem : NewItem.t) :
  select_fault db = None → update_fault db = None →
  NewItem.id newItem = Some newId →
  newId ∉ SidebarItem.id <$> sidebar (stored db) →
  newId ∉ Page.id <$> pages (stored db) →
  (∀ s1 e s2,
     sidebar (stored db) = s1 ++ e :: s2 →
     SidebarItem.id e = oldId → oldId ∉ SidebarItem.id <$> s1 →
     sidebar (stored (Stdio.updateItem oldId newItem db).2) =
       s1 ++ {| SidebarItem.id := newId;
                SidebarItem.label := default (SidebarItem.label e) (NewItem.label newItem);
                SidebarItem.active := default (SidebarItem.active e) (NewItem.active newItem) |}
          :: s2)
  ∧ (∀ p1 e p2,
       pages (stored db) = p1 ++ e :: p2 →
       Page.id e = oldId → oldId ∉ Page.id <$> p1 →
       pages (stored (Stdio.updateItem oldId newItem db).2) =
         p1 ++ {| Page.id := newId;
                  Page.title := default (Page.title e) (NewItem.title newItem);
                  Page.content := default (Page.content e) (NewItem.content newItem) |}
            :: p2).
Proof.
  intros Hsel Hupd Hid Hs Hp.
  pose proof (colliding_id_fresh newId oldId (stored db) Hs Hp) as Hcol.
  rewrite <- Hid in Hcol. split.
  - intros s1 e s2 Hseq He Hs1.
    rewrite Stdio_updateItem_found; [|done..| |done].
    + simpl. rewrite Hseq, update_first_middle by done. by rewrite Hid.
    + left. rewrite Hseq. by apply elem_of_middle.
  - intros p1 e p2 Hseq He Hp1.
    rewrite Stdio_updateItem_found; [|done..| |done].
    + simpl. rewrite Hseq, update_first_middle by done. by rewrite Hid.
    + right. rewrite Hseq. by apply elem_of_middle.
Qed.

Lemma Stdio_updateItem_renames_witness :
  sidebar (stored (Stdio.updateItem (js "a") (only_id (js "b"))
                     (healthy (Some custom_State))).2) =
    [] ++ {| SidebarItem.id := js "b";
             SidebarItem.label := default (js "Custom") None;
             SidebarItem.active := default true None |} :: [].
Proof.
  refine (proj1 (Stdio_updateItem_renames (healthy (Some custom_State)) (js "a") (js "b")
                   (only_id (js "b")) _ _ _ _ _)
            [] ({| SidebarItem.id := js "a"; SidebarItem.label := js "Custom";
                   SidebarItem.active := true |}) [] _ _ _).
  - reflexivity.
  - reflexivity.
  - reflexivity.
  - simpl. intros [=]%list_elem_of_singleton.
  - simpl. intros [=]%list_elem_of_singleton.
  - reflexivity.
  - reflexivity.
  - simpl. apply not_elem_of_nil.
Defined.

(** ** updateItem of the HTTP server *)

Lemma colliding_id_passes newId oldId c :
  (∀ n, newId = Some n →
     n = [] ∨ n = oldId
     ∨ (n ∉ SidebarItem.id <$> sidebar c) ∧ (n ∉ Page.id <$> pages c)) →
  colliding_id newId oldId c = None.
Proof.
  intros Hnew. destruct newId as [n|]; [|done].
  destruct (Hnew n eq_refl) as [-> | [-> | [Hs Hp]]].
  - done.
  - by apply colliding_id_same; right.
  - by apply colliding_id_fresh.
Qed.

(** X19. On the HTTP server, after a successful select and with a
    successful write, updateItem whose new id is absent, empty, the old id
    or an id that the config does not have rebuilds the first entry with
    the old id in each sequence from the update alone: the id is the
    lower-cased new id, or the old id when that is empty or absent; a
    label, title or content that is absent or empty is set from the id
    (capitalised id, "Page " and "Welcome to the page " followed by the
    id), an absent active flag is set to false. The entries around it
    stay. *)
Theorem Http_updateItem_rebuilds {CM : CaseMapping}
    (db : Db) (oldId : jsstring) (newItem : NewItem.t) :
  select_fault db = None → update_fault db = None →
  (∀ n, NewItem.id newItem = Some n →
     n = [] ∨ n = oldId
     ∨ (n ∉ SidebarItem.id <$> sidebar (stored db)) ∧ (n ∉ Page.id <$> pages (stored db))) →
  (∀ s1 e s2,
     sidebar (stored db) = s1 ++ e :: s2 →
     SidebarItem.id e = oldId → oldId ∉ SidebarItem.id <$> s1 →
     sidebar (stored (Http.updateItem oldId newItem db).2) =
       s1 ++ {| SidebarItem.id := or_else (toLowerCase <$> NewItem.id newItem) oldId;
                SidebarItem.label :=
                  or_else (NewItem.label newItem)
                    (capitalizeFirstLetter (or_else (NewItem.id newItem) oldId));
                SidebarItem.active := default false (NewItem.active newItem) |}
          :: s2)
  ∧ (∀ p1 e p2,
       pages (stored db) = p1 ++ e :: p2 →
       Page.id e = oldId → oldId ∉ Page.id <$> p1 →
       pages (stored (Http.updateItem oldId newItem db).2) =
         p1 ++ {| Page.id := or_else (toLowerCase <$> NewItem.id newItem) oldId;
                  Page.title :=
                    or_else (NewItem.title newItem)
                      (js "Page " ++ or_else (NewItem.id newItem) oldId);
                  Page.content :=
                    or_else (NewItem.content newItem)
                      (js "Welcome to the page " ++ or_else (NewItem.id newItem) oldId) |}
            :: p2).
Proof.
  intros Hsel Hupd Hnew.
  pose proof (colliding_id_passes _ oldId (stored db) Hnew) as Hcol. split.
  - intros s1 e s2 Hseq He Hs1.
    rewrite Http_updateItem_found; [|done..| |done].
    + simpl. by rewrite Hseq, update_first_middle.
    + left. rewrite Hseq. by apply elem_of_middle.
  - intros p1 e p2 Hseq He Hp1.
    rewrite Http_updateItem_found; [|done..| |done].
    + simpl. by rewrite Hseq, update_first_middle.
    + right. rewrite Hseq. by apply elem_of_middle.
Qed.

Lemma Http_updateItem_rebuilds_witness :
  sidebar (stored (Http.updateItem (CM := Latin1) (js "a") (only_label (js "New"))
                     (healthy (Some custom_State))).2) =
    [] ++ {| SidebarItem.id := js "a"; SidebarItem.label := js "New";
             SidebarItem.active := false |} :: [].
Proof.
  refine (proj1 (Http_updateItem_rebuilds (CM := Latin1) (healthy (Some custom_State)) (js "a")
                   (only_label (js "New")) _ _ _)
            [] ({| SidebarItem.id := js "a"; SidebarItem.label := js "Custom";
                   SidebarItem.active := true |}) [] _ _ _).
  - reflexivity.
  - reflexivity.
  - intros n [=].
  - reflexivity.
  - reflexivity.
  - simpl. apply not_elem_of_nil.
Defined.

(** ** The stateless addItem *)

(** X20. The stateless addItem answers arguments that fail the schema
    and an id that the given config already has with a failure text and
    without [updatedConfig]; the text for an existing id names the id. For an id that is in neither sequence the answer carries
    the given config with one sidebar item and one page appended, both
    with the lower-cased id, the label defaulting to the capitalised id
    and the title to "Page " followed by the id. *)
Theorem Stateless_addItem_result {CM : CaseMapping} :
  (∀ m, Stateless.addItem (Stateless.ZodError m)
          = Normal (Stateless.failure (js "Failed to add item: " ++ m)))
  ∧ (∀ c item,
       Stateless.Item.id item ∈ Stateless.SidebarItem.id <$> Stateless.sidebar c
         ∨ Stateless.Item.id item ∈ Stateless.Page.id <$> Stateless.pages c →
       ∃ what, what ∈ [js "Sidebar item"; js "Page"] ∧
         Stateless.addItem
           (Stateless.Parsed {| Stateless.config := c; Stateless.item := item |})
           = Normal (Stateless.failure
               (js "Failed to add item: " ++ what ++ js " with ID "
                  ++ Stateless.Item.id item ++ js " already exists")))
  ∧ (∀ c item,
       Stateless.Item.id item ∉ Stateless.SidebarItem.id <$> Stateless.sidebar c →
       Stateless.Item.id item ∉ Stateless.Page.id <$> Stateless.pages c →
       ∃ r, Stateless.addItem
              (Stateless.Parsed {| Stateless.config := c; Stateless.item := item |})
              = Normal r
            ∧ Stateless.updatedConfig r =
                Some {| Stateless.sidebar := Stateless.sidebar c ++
                          [ {| Stateless.SidebarItem.id := toLowerCase (Stateless.Item.id item);
                               Stateless.SidebarItem.label :=
                                 default (capitalizeFirstLetter (Stateless.Item.id item))
                                   (Stateless.Item.label item) |} ];
                        Stateless.pages := Stateless.pages c ++
                          [ {| Stateless.Page.id := toLowerCase (Stateless.Item.id item);
                               Stateless.Page.title :=
                                 default (js "Page " ++ Stateless.Item.id item)
                                   (Stateless.Item.title item) |} ] |}).
Proof.
  split_and!.
  - reflexivity.
  - intros c item Hin. unfold Stateless.addItem. cbn [Stateless.config Stateless.item].
    destruct (Array_some _ (Stateless.sidebar c)) eqn:Es.
    + exists (js "Sidebar item"). split; [apply list_elem_of_here|]. done.
    + destruct Hin as [Hin|Hin].
      { apply (Array_some_elem Stateless.SidebarItem.id) in Hin. congruence. }
      apply (Array_some_elem Stateless.Page.id) in Hin. rewrite Hin.
      exists (js "Page"). split; [apply list_elem_of_further, list_elem_of_here|]. done.
  - intros c item Hs Hp. unfold Stateless.addItem. cbn [Stateless.config Stateless.item].
    rewrite (Array_some_absent Stateless.SidebarItem.id),
      (Array_some_absent Stateless.Page.id) by done.
    eexists. split; reflexivity.
Qed.

(** ** The folded id on the HTTP server *)

(** X21. On the HTTP server an item added under an id that is not its own
    lower case is stored under the lower-cased id only: right after the
    addItem that went through, deleteItem and updateItem under the id as
    it was given answer with the not-found text and leave the database as
    addItem left it. *)
Theorem Http_added_id_not_found {CM : CaseMapping} (db : Db) (item : Item.t)
    (newItem : NewItem.t) :
  select_fault db = None → update_fault db = None →
  Item.id item ∉ SidebarItem.id <$> sidebar (stored db) →
  Item.id item ∉ Page.id <$> pages (stored db) →
  toLowerCase (Item.id item) ≠ Item.id item →
  Http.deleteItem (Item.id item) (Http.addItem item db).2
    = (Normal (not_found (Item.id item)), (Http.addItem item db).2)
  ∧ Http.updateItem (Item.id item) newItem (Http.addItem item db).2
      = (Normal (not_found (Item.id item)), (Http.addItem item db).2).
Proof.
  intros Hsel Hupd Hs Hp Hfold. rewrite Http_addItem_fresh_db by done.
  set (db1 := written _ _).
  assert (select_fault db1 = None) as Hsel1 by done.
  assert (Item.id item ∉ SidebarItem.id <$> sidebar (stored db1)) as Hs1.
  { unfold db1, written. rewrite stored_Some. cbn [sidebar].
    rewrite fmap_app. apply not_elem_of_app. split; [done|].
    simpl. intros ?%list_elem_of_singleton. done. }
  assert (Item.id item ∉ Page.id <$> pages (stored db1)) as Hp1.
  { unfold db1, written. rewrite stored_Some. cbn [pages].
    rewrite fmap_app. apply not_elem_of_app. split; [done|].
    simpl. intros ?%list_elem_of_singleton. done. }
  split.
  - rewrite Http_deleteItem_eq. by apply deleteItem_not_found.
  - unfold Http.updateItem. run_select Hsel1. fold (stored db1).
    by rewrite (findIndex_absent SidebarItem.id), (findIndex_absent Page.id).
Qed.

Lemma Http_added_id_not_found_witness :
  Http.deleteItem (js "Home") (Http.addItem (CM := Latin1) Home_item (healthy None)).2
    = (Normal (not_found (js "Home")), (Http.addItem (CM := Latin1) Home_item (healthy None)).2)
  ∧ Http.updateItem (CM := Latin1) (js "Home") no_fields
      (Http.addItem (CM := Latin1) Home_item (healthy None)).2
      = (Normal (not_found (js "Home")),
         (Http.addItem (CM := Latin1) Home_item (healthy None)).2).
Proof.
  apply (Http_added_id_not_found (CM := Latin1) (healthy None) Home_item no_fields).
  - reflexivity.
  - reflexivity.
  - simpl. apply not_elem_of_nil.
  - simpl. apply not_elem_of_nil.
  - discriminate.
Defined.
